(** * Batch readers of [tape/data_gen.py]

    A shallow embedding of
    [PaddleHelix/apps/pretrained_protein/tape/data_gen.py] and the
    properties of its batch readers, of the task dispatch and of the ad-hoc
    batch builder.

    Conventions of the embedding.
    - A one-dimensional numpy array is a [list Z]; integers are unbounded
      (the readers only add offsets that index arrays held in memory, far
      below the 64-bit range).  Label values are only moved around, never
      computed with, so float labels lose nothing by being read as [Z].
    - The two-dimensional arrays made by [reshape] carry their shape.
    - A Python exception is a value of [exn]; code that may raise returns a
      [result].
    - The generator [__reader__] is a frame that [next] resumes; the list
      [examples] it yields lives in a heap of list objects, and every yield
      hands out the same location.
    - [apply_bert_mask] and the tokenizer are not part of this file of the
      repository; they are parameters.  The masking transform may use
      hidden state (its random source), which is threaded as a world [W]. *)

From stdpp Require Import gmap strings list.
From Stdlib Require Import ZArith Lia.

Local Open Scope Z_scope.

(** ** Exceptions and results *)

Inductive exn : Type :=
| IOError (filename : string)   (* np.load: no archive at that path *)
| KeyError (key : string)       (* data[key], model_config[key]: no such key *)
| IndexError                    (* a[i] out of range *)
| ValueError                    (* reshape: sizes do not match *)
| NameError (msg : string).     (* raised by get_sample_generator *)

Inductive result (A : Type) : Type :=
| Ok (a : A)
| Raise (e : exn).
Arguments Ok {A} a.
Arguments Raise {A} e.

Definition bind {A B} (c : result A) (k : A → result B) : result B :=
  match c with
  | Ok a => k a
  | Raise e => Raise e
  end.

Notation "'do' x <- c ; k" := (bind c (λ x, k))
  (at level 10, x pattern, c at level 100, k at level 200).

(** ** The fragment of numpy the module uses *)

Module np.

(** [a[start:stop]] on a one-dimensional array of [n] elements: a negative
    bound counts from the end, and both bounds are clipped to [0..n]. *)
Definition clip (n k : Z) : Z :=
  if k <? 0 then Z.max (k + n) 0 else Z.min k n.

Definition slice (a : list Z) (start stop : Z) : list Z :=
  let n := Z.of_nat (length a) in
  let lo := clip n start in
  let hi := clip n stop in
  take (Z.to_nat (hi - lo)) (drop (Z.to_nat lo) a).

(** [np.arange(n)]: [0, 1, ..., n-1], empty when [n <= 0]. *)
Definition arange (n : Z) : list Z := Z.of_nat <$> seq 0 (Z.to_nat n).

(** A two-dimensional array: its shape and its elements in row order. *)
Record ndarray : Type := NDArray { shape : Z * Z; data : list Z }.

(** [a.reshape(r, c)]: a negative dimension is the unknown one and is
    computed from the size; otherwise the sizes must agree. *)
Definition reshape (a : list Z) (r c : Z) : result ndarray :=
  let size := Z.of_nat (length a) in
  if (r <? 0) && (c <? 0) then Raise ValueError
  else if r <? 0 then
    if (c =? 0) || negb (size mod c =? 0) then Raise ValueError
    else Ok (NDArray (size / c, c) a)
  else if c <? 0 then
    if (r =? 0) || negb (size mod r =? 0) then Raise ValueError
    else Ok (NDArray (r, size / r) a)
  else if r * c =? size then Ok (NDArray (r, c) a)
  else Raise ValueError.

(** [a[i]] for a non-negative index. *)
Definition getitem (a : list Z) (i : nat) : result Z :=
  match a !! i with
  | Some x => Ok x
  | None => Raise IndexError
  end.

End np.

(** ** Data model *)

(** The tuple [(tokens, pos, label)] appended to [examples]. *)
Record example : Type := Example {
  tokens : np.ndarray;
  pos : np.ndarray;
  label : np.ndarray
}.

(** What the readers keep of an opened archive: the three local arrays of
    the loop over files. *)
Record loaded : Type := Loaded {
  token_ids : list Z;   (* masked_token_ids in the pretraining reader *)
  labels : list Z;
  lengths : list Z
}.

(** The three reader functions differ in two places only: how the arrays
    are obtained from the archive, and how the label is cut. *)
Inductive variant : Type :=
| Pretrain
| SeqLabel (label_name : string)
| Scalar (label_name : string).

(** The value returned by a reader function: the closure [__reader__] with
    the variables it captures. *)
Record reader : Type := Reader {
  r_variant : variant;
  filenames : list string;
  batch_size : Z
}.

Definition pretrain_sample_reader (filenames : list string) (batch_size : Z) : reader :=
  Reader Pretrain filenames batch_size.

Definition sequence_sample_reader (filenames : list string) (batch_size : Z)
    (label_name : string) : reader :=
  Reader (SeqLabel label_name) filenames batch_size.

Definition normal_sample_reader (filenames : list string) (batch_size : Z)
    (label_name : string) : reader :=
  Reader (Scalar label_name) filenames batch_size.

(** [get_sample_generator]: [model_config] is a dict from which only the
    string entries ['task'] and ['label_name'] are read. *)
Definition config_get (model_config : gmap string string) (key dflt : string) : string :=
  default dflt (model_config !! key).

Definition get_sample_generator (filenames : list string) (batch_size : Z)
    (model_config : gmap string string) : result reader :=
  match model_config !! "task" with
  | None => Raise (KeyError "task")
  | Some task =>
    if String.eqb task "pretrain" then
      Ok (pretrain_sample_reader filenames batch_size)
    else if String.eqb task "seq_classification" then
      let label_name := config_get model_config "label_name" "labels" in
      Ok (sequence_sample_reader filenames batch_size label_name)
    else if bool_decide (task ∈ ["classification"; "regression"]) then
      let label_name := config_get model_config "label_name" "labels" in
      Ok (normal_sample_reader filenames batch_size label_name)
    else Raise (NameError ("Task " +:+ task +:+ " is unsupport."))
  end.

(** One example, lines 44-47, 78-81 and 112-115.  [len_i] is [lengths[i]]. *)
Definition make_example (v : variant) (d : loaded) (i : nat) (offset len_i : Z)
    : result example :=
  do tokens <- np.reshape (np.slice (token_ids d) offset (offset + len_i)) len_i 1;
  do pos <- np.reshape (np.arange len_i) len_i 1;
  do label <-
    match v with
    | Scalar _ =>
      np.reshape (np.slice (labels d) (Z.of_nat i) (Z.of_nat i + 1)) 1 1
    | _ =>
      np.reshape (np.slice (labels d) offset (offset + len_i)) len_i 1
    end;
  Ok (Example tokens pos label).

(** How the loop over [range(lengths.size)] is left. *)
Inductive loop_exit : Type :=
| AtYield (i : nat) (offset : Z)  (* suspended at the [yield] inside the loop *)
| RangeDone                       (* the range is exhausted *)
| Raised (e : exn).

(** The loop over the examples of one archive, from the indices [idx] on,
    up to its first [yield].  It returns the content of [examples] when the
    loop is left.  At the [yield], [examples.clear()] and the update of
    [offset] are still to come: they run when the generator is resumed. *)
Fixpoint file_loop (v : variant) (batch_size : Z) (d : loaded) (idx : list nat)
    (offset : Z) (examples : list example) : loop_exit * list example :=
  match idx with
  | [] => (RangeDone, examples)
  | i :: idx' =>
    match np.getitem (lengths d) i with
    | Raise e => (Raised e, examples)
    | Ok len_i =>
      match make_example v d i offset len_i with
      | Raise e => (Raised e, examples)
      | Ok ex =>
        let examples := examples ++ [ex] in
        if Z.of_nat (length examples) =? batch_size
        then (AtYield i offset, examples)
        else file_loop v batch_size d idx' (offset + len_i) examples
      end
    end
  end.

(** [range(lengths.size)] from [i] on. *)
Definition range_from (d : loaded) (i : nat) : list nat :=
  seq i (length (lengths d) - i).

(** How a run of the generator body ends: at one of its two [yield]s, by
    returning, or with an exception. *)
Inductive outcome : Type :=
| Suspend49 (rest : list string) (d : loaded) (i : nat) (offset : Z)
| Suspend53
| Return_
| Throw (e : exn).

(** ** Batching, as the specification words it *)

(** How a pass over the generator ends. *)
Inductive ending : Type :=
| Completed
| Aborted (e : exn).

(** Whether an accumulator that still needs [need] examples to be full
    gets full within [es]. *)
Definition fills (need : Z) (es : list example) : bool :=
  (1 <=? need) && (need <=? Z.of_nat (length es)).

(** Full batches of [B] examples cut from the front of [es], and what is
    left; no batch is ever full when [B <= 0]. *)
Fixpoint split_full (n : nat) (B : Z) (es : list example)
    : list (list example) * list example :=
  match n with
  | O => ([], es)
  | S n' =>
    if fills B es then
      let '(bs, r) := split_full n' B (drop (Z.to_nat B) es) in
      (take (Z.to_nat B) es :: bs, r)
    else ([], es)
  end.

(** The batches of a stream: the full ones, then the rest as a last batch
    when the stream ended without an exception and something is left. *)
Definition batching (B : Z) (s : list example * option exn)
    : list (list example) * option ending :=
  let '(bs, r) := split_full (length s.1) B s.1 in
  match s.2 with
  | Some e => (bs, Some (Aborted e))
  | None => (if 0 <? Z.of_nat (length r) then bs ++ [r] else bs, Some Completed)
  end.

(** How the body stops once the examples are used up without the
    accumulator getting full: with the exception that ended the stream, at
    the final [yield], or by returning. *)
Definition final_outcome (t : option exn) (examples : list example) : outcome :=
  match t with
  | Some e => Throw e
  | None => if 0 <? Z.of_nat (length examples) then Suspend53 else Return_
  end.

(** [ceil(N / B)] for a positive [B]. *)
Definition ceil_div (N B : Z) : Z := (N + B - 1) / B.

(** ** Archives, as the specification words them *)

(** Python's [sum] on a list of integers. *)
Definition sum (a : list Z) : Z := foldr Z.add 0 a.

(** [sum(lengths[:i])]: the offset of example [i] in the flat buffers. *)
Definition offset_of (d : loaded) (i : nat) : Z := sum (take i (lengths d)).

(** A column vector of [rows] rows. *)
Definition column (rows : Z) (a : list Z) : np.ndarray := np.NDArray (rows, 1) a.

(** Whether labels are cut per example rather than per token. *)
Definition per_example (v : variant) : bool :=
  match v with
  | Scalar _ => true
  | _ => false
  end.

(** The invariant of an archive: lengths are token counts that add up to
    the size of the token buffer; labels are per token, or per example for
    the scalar-label tasks. *)
Definition well_formed (v : variant) (d : loaded) : Prop :=
  Forall (λ len, 0 <= len) (lengths d) ∧
  sum (lengths d) = Z.of_nat (length (token_ids d)) ∧
  length (labels d) = (if per_example v then length (lengths d) else length (token_ids d)).

(** What the loops need of an archive to build every example: token counts
    that stay within the token buffer, and labels enough for them. *)
Definition fits (v : variant) (d : loaded) : Prop :=
  Forall (λ len, 0 <= len) (lengths d) ∧
  sum (lengths d) <= Z.of_nat (length (token_ids d)) ∧
  (if per_example v
   then (length (lengths d) ≤ length (labels d))%nat
   else sum (lengths d) <= Z.of_nat (length (labels d))).

(** Example [i] of an archive: the slice [offset, offset + lengths[i]) of
    the token buffer, the positions [0..lengths[i]-1], and the label slice
    (the same slice, or entry [i] alone for scalar labels). *)
Definition spec_example (v : variant) (d : loaded) (i : nat) : example :=
  let len_i := default 0 (lengths d !! i) in
  let offset := offset_of d i in
  Example
    (column len_i (np.slice (token_ids d) offset (offset + len_i)))
    (column len_i (np.arange len_i))
    (if per_example v
     then column 1 (np.slice (labels d) (Z.of_nat i) (Z.of_nat i + 1))
     else column len_i (np.slice (labels d) offset (offset + len_i))).

Definition spec_examples (v : variant) (d : loaded) : list example :=
  spec_example v d <$> seq 0 (length (lengths d)).

(** The number of examples of a list of archives. *)
Definition total_examples (ds : list loaded) : nat :=
  foldr (λ d n, (length (lengths d) + n)%nat) 0%nat ds.

(** The number of examples in the archives before the [j]-th. *)
Definition examples_before (ds : list loaded) (j : nat) : nat :=
  total_examples (take j ds).

(** An example whose token column has exactly the rows its entry of
    [lengths] asks for: [rows] tokens against the positions [0..rows-1]. *)
Definition full_rows (e : example) : Prop :=
  ∃ rows, 0 <= rows ∧
    np.shape (tokens e) = (rows, 1) ∧
    Z.of_nat (length (np.data (tokens e))) = rows ∧
    pos e = column rows (np.arange rows).


(** ** The ad-hoc batch builder *)

(** [fluid.core.LoDTensor]: an array and its table of offsets.  The device
    ([place]) plays no part in what the tensor holds. *)
Record LoDTensor : Type := MkLoDTensor {
  tensor : option np.ndarray;
  lod : list (list Z)
}.

Definition new_LoDTensor : LoDTensor := MkLoDTensor None [].

Definition set (t : LoDTensor) (a : np.ndarray) : LoDTensor :=
  MkLoDTensor (Some a) (lod t).

(** [CheckLoD] of Paddle's [lod_tensor.cc], which [set_lod] enforces:
    every level of the table has at least two offsets, starts at 0 and
    does not descend; the last offset of the lowest level is the height of
    the tensor when that is positive; and the last offset of a level is the
    number of segments of the level below it. *)
Fixpoint non_descending (level : list Z) : bool :=
  match level with
  | x :: (y :: _) as rest => (x <=? y) && non_descending rest
  | _ => true
  end.

Definition check_level (level : list Z) : bool :=
  (2 <=? length level)%nat && bool_decide (head level = Some 0) && non_descending level.

Fixpoint levels_chain (l : list (list Z)) : bool :=
  match l with
  | upper :: (lower :: _) as rest =>
    bool_decide (last upper = Some (Z.of_nat (length lower) - 1)) && levels_chain rest
  | _ => true
  end.

Definition CheckLoD (l : list (list Z)) (tensor_height : Z) : bool :=
  match last l with
  | None => true
  | Some lowest =>
    forallb check_level l &&
    (if 0 <? tensor_height then bool_decide (last lowest = Some tensor_height) else true) &&
    levels_chain l
  end.

(** The first dimension of the array a tensor holds. *)
Definition tensor_height (t : LoDTensor) : Z :=
  match tensor t with
  | Some a => (np.shape a).1
  | None => 0
  end.

(** [t.set_lod(l)]: the table is checked against the first dimension of
    the tensor, and an invalid one is refused with Paddle's
    [InvalidArgument] error, a [ValueError] in Python. *)
Definition set_lod (t : LoDTensor) (l : list (list Z)) : result LoDTensor :=
  if CheckLoD l (tensor_height t) then Ok (MkLoDTensor (tensor t) l)
  else Raise ValueError.

(** The body of the loop of [gen_batch_data], lines 199-202, on the three
    lists [token_ids], [pos] and [lods]. *)
Definition batch_step (gen_token_ids : string → list Z)
    (st : list Z * list Z * list Z) (example : string) : list Z * list Z * list Z :=
  let '(token_ids, pos, lods) := st in
  let cur_token_ids := gen_token_ids example in
  let token_ids := token_ids ++ cur_token_ids in
  let pos := pos ++ np.arange (Z.of_nat (length cur_token_ids)) in
  let lods := lods ++ [Z.of_nat (length token_ids)] in
  (token_ids, pos, lods).

Definition gen_batch_data (examples : list string) (gen_token_ids : string → list Z)
    : result (gmap string LoDTensor) :=
  let '(token_ids, pos, lods) := foldl (batch_step gen_token_ids) ([], [], [0]) examples in
  do token_array <- np.reshape token_ids (-1) 1;
  do token_tensor <- set_lod (set new_LoDTensor token_array) [lods];
  do pos_array <- np.reshape pos (-1) 1;
  do pos_tensor <- set_lod (set new_LoDTensor pos_array) [lods];
  Ok {[ "protein_token" := token_tensor; "protein_pos" := pos_tensor ]}.

(** The cumulative sums [acc, acc + len_0, acc + len_0 + len_1, ...]. *)
Fixpoint prefix_sums (acc : Z) (lens : list Z) : list Z :=
  acc :: match lens with
         | [] => []
         | len :: lens' => prefix_sums (acc + len) lens'
         end.

(** ** Archives on disk *)

(** The invariant of an archive, on its named arrays: the fields the
    reader of the variant looks up are there, the lengths are token counts
    that add up to the size of [token_ids], and the label field has one
    entry per token, or per example for the scalar-label tasks. *)
Definition archive_well_formed (v : variant) (data : gmap string (list Z)) : Prop :=
  ∃ t n,
    data !! "token_ids" = Some t ∧ data !! "lengths" = Some n ∧
    Forall (λ len, 0 <= len) n ∧ sum n = Z.of_nat (length t) ∧
    match v with
    | Pretrain => True
    | SeqLabel label_name => ∃ l, data !! label_name = Some l ∧ length l = length t
    | Scalar label_name => ∃ l, data !! label_name = Some l ∧ length l = length n
    end.

(** The fields of an archive a reader looks up. *)
Definition fields_read (v : variant) : list string :=
  match v with
  | Pretrain => ["token_ids"; "lengths"]
  | SeqLabel label_name | Scalar label_name => ["token_ids"; label_name; "lengths"]
  end.

(** Two disks with the same archives as far as a reader looks. *)
Definition same_fields (v : variant) (fs fs' : gmap string (gmap string (list Z))) : Prop :=
  ∀ filename,
    match fs !! filename, fs' !! filename with
    | Some data, Some data' => ∀ key, key ∈ fields_read v → data !! key = data' !! key
    | None, None => True
    | _, _ => False
    end.

(** ** Sample archives *)

Module Samples.

Definition archive (token_ids labels lengths : list Z) : gmap string (list Z) :=
  {[ "token_ids" := token_ids; "labels" := labels; "lengths" := lengths ]}.

Definition disk : gmap string (gmap string (list Z)) :=
  {[ "seq_a" := archive [1; 2; 3; 4; 5] [11; 12; 13; 14; 15] [2; 3];
     "seq_b" := archive [6; 7; 8] [16; 17; 18] [1; 1; 1];
     "scalar_a" := archive [1; 2; 3; 4; 5; 6] [7; 8; 9] [3; 1; 2];
     "short" := archive [1; 2; 3] [0; 0; 0] [2; 2];
     "long" := archive [1; 2; 3] [0; 0; 0] [2];
     "empty" := archive [] [] [] ]}.

Definition seq_a : loaded := Loaded [1; 2; 3; 4; 5] [11; 12; 13; 14; 15] [2; 3].
Definition seq_b : loaded := Loaded [6; 7; 8] [16; 17; 18] [1; 1; 1].
Definition scalar_a : loaded := Loaded [1; 2; 3; 4; 5; 6] [7; 8; 9] [3; 1; 2].
Definition long : loaded := Loaded [1; 2; 3] [0; 0; 0] [2].
Definition empty : loaded := Loaded [] [] [].

(** ["seq_a"] and ["seq_b"] as the pretraining reader keeps them under
    [mask_none] below. *)
Definition masked_a : loaded := Loaded [1; 2; 3; 4; 5] [-1; -1; -1; -1; -1] [2; 3].
Definition masked_b : loaded := Loaded [6; 7; 8] [-1; -1; -1] [1; 1; 1].

(** A masking transform without hidden state: nothing is masked, every
    label is the ignore value. *)
Definition mask_none (w : unit) (token_ids : list Z) : (list Z * list Z) * unit :=
  ((token_ids, (λ _, -1) <$> token_ids), tt).

(** Modelled from the spec: [apply_bert_mask] is not in this file; the
    specification gives it a mask probability and a replacement
    distribution, so it draws on a random source.  Here the hidden state is
    a counter: the position it points at is masked (token id 0, label the
    token that was there), every other label is the ignore value, and the
    counter moves on. *)
Definition mask_one (w : nat) (token_ids : list Z) : (list Z * list Z) * nat :=
  let k := (w mod length token_ids)%nat in
  ((<[k := 0]> token_ids,
    <[k := default 0 (token_ids !! k)]> ((λ _, -1) <$> token_ids)),
   S w).

(** One token id per character. *)
Definition char_ids (s : string) : list Z :=
  (λ c, Z.of_nat (Ascii.nat_of_ascii c)) <$> String.list_ascii_of_string s.

(** The archive ["seq_a"] with a field the readers do not look up, and
    other labels. *)
Definition disk' : gmap string (gmap string (list Z)) :=
  {[ "seq_a" := <["notes" := [0]]> (archive [1; 2; 3; 4; 5] [0; 0; 0; 0; 0] [2; 3]) ]}.

(** An archive with fewer labels than examples. *)
Definition few_labels : loaded := Loaded [1; 2; 3; 4; 5; 6] [7; 8] [3; 1; 2].

Definition disk_few_labels : gmap string (gmap string (list Z)) :=
  {[ "few" := archive [1; 2; 3; 4; 5; 6] [7; 8] [3; 1; 2] ]}.

(** The archive ["seq_a"] alone. *)
Definition disk_a : gmap string (gmap string (list Z)) :=
  {[ "seq_a" := archive [1; 2; 3; 4; 5] [11; 12; 13; 14; 15] [2; 3] ]}.

End Samples.

Section Readers.

(** The hidden state of the masking transform and the transform itself:
    from the world and [data['token_ids']] to
    [(masked_token_ids, labels)] and the next world. *)
Context {W : Type}.
Variable apply_bert_mask : W → list Z → (list Z * list Z) * W.

(** The archives on disk: path to named arrays. *)
Variable fs : gmap string (gmap string (list Z)).

Definition np_load (filename : string) : result (gmap string (list Z)) :=
  match fs !! filename with
  | Some data => Ok data
  | None => Raise (IOError filename)
  end.

Definition field (data : gmap string (list Z)) (key : string) : result (list Z) :=
  match data !! key with
  | Some a => Ok a
  | None => Raise (KeyError key)
  end.

(** Lines 38-40, 71-74 and 105-108.  The world is returned in every case:
    the masking transform has run once [data['lengths']] is looked up. *)
Definition load (v : variant) (w : W) (filename : string) : result loaded * W :=
  match np_load filename with
  | Raise e => (Raise e, w)
  | Ok data =>
    match v with
    | Pretrain =>
      match field data "token_ids" with
      | Raise e => (Raise e, w)
      | Ok token_ids =>
        let '((masked_token_ids, labels), w') := apply_bert_mask w token_ids in
        (do lengths <- field data "lengths";
         Ok (Loaded masked_token_ids labels lengths), w')
      end
    | SeqLabel label_name | Scalar label_name =>
      (do token_ids <- field data "token_ids";
       do labels <- field data label_name;
       do lengths <- field data "lengths";
       Ok (Loaded token_ids labels lengths), w)
    end
  end.

(** What follows the loop over one archive: the generator is suspended or
    has raised, or ([None]) the loop over the files goes on. *)
Definition loop_outcome (rest : list string) (d : loaded) (x : loop_exit) : option outcome :=
  match x with
  | AtYield i offset => Some (Suspend49 rest d i offset)
  | Raised e => Some (Throw e)
  | RangeDone => None
  end.

(** The loop over the files and the final [yield], lines 37-53, up to the
    first [yield]. *)
Fixpoint files_loop (v : variant) (batch_size : Z) (files : list string) (w : W)
    (examples : list example) : outcome * list example * W :=
  match files with
  | [] =>
    if 0 <? Z.of_nat (length examples) then (Suspend53, examples, w)
    else (Return_, examples, w)
  | filename :: rest =>
    match load v w filename with
    | (Raise e, w') => (Throw e, examples, w')
    | (Ok d, w') =>
      let '(x, examples') := file_loop v batch_size d (range_from d 0) 0 examples in
      match loop_outcome rest d x with
      | Some o => (o, examples', w')
      | None => files_loop v batch_size rest w' examples'
      end
    end
  end.

(** Resuming after the [yield] of line 49: [examples.clear()], then
    [offset += lengths[i]], and the loops go on. *)
Definition resume49 (v : variant) (batch_size : Z) (rest : list string) (d : loaded)
    (i : nat) (offset : Z) (w : W) : outcome * list example * W :=
  match np.getitem (lengths d) i with
  | Raise e => (Throw e, [], w)
  | Ok len_i =>
    let '(x, examples) :=
      file_loop v batch_size d (range_from d (S i)) (offset + len_i) [] in
    match loop_outcome rest d x with
    | Some o => (o, examples, w)
    | None => files_loop v batch_size rest w examples
    end
  end.

(** ** The generator object and the heap of list objects *)

(** A suspended (or not yet started, or finished) call of [__reader__].
    [examples] is the location of the list bound to the local variable of
    that name. *)
Inductive frame : Type :=
| NotStarted
| AtYield49 (examples : positive) (rest : list string) (d : loaded) (i : nat) (offset : Z)
| AtYield53 (examples : positive)
| Finished.

(** The list object a generator holds, once its body has started. *)
Definition examples_loc (g : frame) : option positive :=
  match g with
  | AtYield49 l _ _ _ _ | AtYield53 l => Some l
  | NotStarted | Finished => None
  end.

(** The list a call of [next] writes to: the generator's own, or the one
    it allocates when its body starts. *)
Definition own_loc (g : frame) (σ : gmap positive (list example)) : positive :=
  default (fresh (dom σ)) (examples_loc g).

(** A generator that has examples to build yet: not started, or suspended
    inside the loops. *)
Definition live (g : frame) : Prop :=
  match g with
  | NotStarted | AtYield49 _ _ _ _ _ => True
  | AtYield53 _ | Finished => False
  end.

(** What [next(g)] gives its caller. *)
Inductive reply : Type :=
| Yield (l : positive)   (* a reference to the list [examples] *)
| StopIteration
| Error (e : exn).

(** Calling the reader: a generator object whose body has not started. *)
Definition call_reader (r : reader) : frame := NotStarted.

(** The body stops: the content of [examples] is in the heap at [l]. *)
Definition settle (l : positive) (run : outcome * list example * W)
    (σ : gmap positive (list example)) : reply * frame * gmap positive (list example) * W :=
  let '(o, examples, w) := run in
  let σ' := <[l := examples]> σ in
  match o with
  | Suspend49 rest d i offset => (Yield l, AtYield49 l rest d i offset, σ', w)
  | Suspend53 => (Yield l, AtYield53 l, σ', w)
  | Return_ => (StopIteration, Finished, σ', w)
  | Throw e => (Error e, Finished, σ', w)
  end.

(** [next(g)]: the body runs from where it stopped to its next [yield].
    The first call allocates the list of line 36. *)
Definition next (r : reader) (g : frame) (σ : gmap positive (list example)) (w : W)
    : reply * frame * gmap positive (list example) * W :=
  match g with
  | NotStarted =>
    settle (fresh (dom σ))
      (files_loop (r_variant r) (batch_size r) (filenames r) w []) σ
  | AtYield49 l rest d i offset =>
    settle l (resume49 (r_variant r) (batch_size r) rest d i offset w) σ
  | AtYield53 l => (StopIteration, Finished, σ, w)
  | Finished => (StopIteration, Finished, σ, w)
  end.

(** [for batch in g: use(batch)]: the consumer reads each batch when it is
    yielded.  [None] as ending: the fuel ran out. *)
Fixpoint consume (fuel : nat) (r : reader) (g : frame)
    (σ : gmap positive (list example)) (w : W)
    : list (list example) * option ending :=
  match fuel with
  | O => ([], None)
  | S fuel' =>
    match next r g σ w with
    | (Yield l, g', σ', w') =>
      let '(bs, e) := consume fuel' r g' σ' w' in
      (σ' !!! l :: bs, e)
    | (StopIteration, _, _, _) => ([], Some Completed)
    | (Error e, _, _, _) => ([], Some (Aborted e))
    end
  end.

(** [batches = list(g)]: the consumer keeps the references and looks at the
    lists after the pass. *)
Fixpoint collect (fuel : nat) (r : reader) (g : frame)
    (σ : gmap positive (list example)) (w : W)
    : list positive * gmap positive (list example) * option ending :=
  match fuel with
  | O => ([], σ, None)
  | S fuel' =>
    match next r g σ w with
    | (Yield l, g', σ', w') =>
      let '(ls, σ'', e) := collect fuel' r g' σ' w' in
      (l :: ls, σ'', e)
    | (StopIteration, _, σ', _) => ([], σ', Some Completed)
    | (Error e, _, σ', _) => ([], σ', Some (Aborted e))
    end
  end.

(** ** The examples of a pass, batching left out *)

(** The examples the loop over one archive builds from the indices [idx]
    on, and the exception that stops it, if any. *)
Fixpoint file_stream (v : variant) (d : loaded) (idx : list nat) (offset : Z)
    : list example * option exn :=
  match idx with
  | [] => ([], None)
  | i :: idx' =>
    match np.getitem (lengths d) i with
    | Raise e => ([], Some e)
    | Ok len_i =>
      match make_example v d i offset len_i with
      | Raise e => ([], Some e)
      | Ok ex =>
        let '(es, t) := file_stream v d idx' (offset + len_i) in
        (ex :: es, t)
      end
    end
  end.

(** One stream after the other; an exception ends the whole. *)
Definition then_stream (s1 s2 : list example * option exn) : list example * option exn :=
  match s1 with
  | (es, Some e) => (es, Some e)
  | (es, None) => (es ++ s2.1, s2.2)
  end.

Fixpoint files_stream (v : variant) (files : list string) (w : W)
    : list example * option exn :=
  match files with
  | [] => ([], None)
  | filename :: rest =>
    match load v w filename with
    | (Raise e, _) => ([], Some e)
    | (Ok d, w') =>
      then_stream (file_stream v d (range_from d 0) 0) (files_stream v rest w')
    end
  end.

(** The examples still to come after the [yield] of line 49. *)
Definition pending49 (v : variant) (rest : list string) (d : loaded) (i : nat)
    (offset : Z) (w : W) : list example * option exn :=
  match np.getitem (lengths d) i with
  | Raise e => ([], Some e)
  | Ok len_i =>
    then_stream (file_stream v d (range_from d (S i)) (offset + len_i))
                (files_stream v rest w)
  end.

Definition pending (r : reader) (g : frame) (w : W) : list example * option exn :=
  match g with
  | NotStarted => files_stream (r_variant r) (filenames r) w
  | AtYield49 _ rest d i offset => pending49 (r_variant r) rest d i offset w
  | AtYield53 _ | Finished => ([], None)
  end.

(** All archives of a pass, opened in order. *)
Fixpoint load_all (v : variant) (files : list string) (w : W) : result (list loaded) * W :=
  match files with
  | [] => (Ok [], w)
  | filename :: rest =>
    match load v w filename with
    | (Raise e, w') => (Raise e, w')
    | (Ok d, w') =>
      match load_all v rest w' with
      | (Raise e, w'') => (Raise e, w'')
      | (Ok ds, w'') => (Ok (d :: ds), w'')
      end
    end
  end.

(** ** Two passes side by side *)

(** What the consumer of a pass sees of one call of [next]: the batch, read
    when it is yielded, the end of the iteration, or the exception. *)
Inductive observation : Type :=
| SawBatch (b : list example)
| SawStop
| SawError (e : exn).

Definition observe (rep : reply) (σ : gmap positive (list example)) : observation :=
  match rep with
  | Yield l => SawBatch (σ !!! l)
  | StopIteration => SawStop
  | Error e => SawError e
  end.

(** [n] calls of [next] on one generator. *)
Fixpoint solo (r : reader) (n : nat) (g : frame)
    (σ : gmap positive (list example)) (w : W) : list observation :=
  match n with
  | O => []
  | S n' =>
    let '(rep, g', σ', w') := next r g σ w in
    observe rep σ' :: solo r n' g' σ' w'
  end.

(** Two generators in one heap and one world; [who] says which of them
    the next call of [next] is on ([true] for the first). *)
Definition step_duo (r1 r2 : reader) (who : bool)
    (st : frame * frame * gmap positive (list example) * W)
    : observation * (frame * frame * gmap positive (list example) * W) :=
  let '(g1, g2, σ, w) := st in
  if who then
    let '(rep, g1', σ', w') := next r1 g1 σ w in (observe rep σ', (g1', g2, σ', w'))
  else
    let '(rep, g2', σ', w') := next r2 g2 σ w in (observe rep σ', (g1, g2', σ', w')).

Fixpoint interleave (r1 r2 : reader) (sched : list bool)
    (st : frame * frame * gmap positive (list example) * W)
    : list (bool * observation) * (frame * frame * gmap positive (list example) * W) :=
  match sched with
  | [] => ([], st)
  | who :: sched' =>
    let '(o, st') := step_duo r1 r2 who st in
    let '(tr, st'') := interleave r1 r2 sched' st' in
    ((who, o) :: tr, st'')
  end.

(** The calls on one of the two generators in a schedule, and what its
    consumer has seen. *)
Fixpoint calls (who : bool) (sched : list bool) : nat :=
  match sched with
  | [] => O
  | b :: sched' => ((if Bool.eqb b who then 1 else 0) + calls who sched')%nat
  end.

Fixpoint seen (who : bool) (tr : list (bool * observation)) : list observation :=
  match tr with
  | [] => []
  | (b, o) :: tr' => if Bool.eqb b who then o :: seen who tr' else seen who tr'
  end.

(** Two frames at the same point of the body with the same local values,
    whatever list object each holds. *)
Definition same_ctrl (g h : frame) : Prop :=
  match g, h with
  | NotStarted, NotStarted => True
  | AtYield49 _ rest d i offset, AtYield49 _ rest' d' i' offset' =>
    rest = rest' ∧ d = d' ∧ i = i' ∧ offset = offset'
  | AtYield53 _, AtYield53 _ => True
  | Finished, Finished => True
  | _, _ => False
  end.

(** The masking transform gives the same buffers whenever it is given the
    same token ids: its result does not depend on the hidden state. *)
Definition mask_functional : Prop :=
  ∀ w w' t, (apply_bert_mask w t).1 = (apply_bert_mask w' t).1.

(** What a reader needs to give the same examples on every pass. *)
Definition repeatable (v : variant) : Prop :=
  match v with
  | Pretrain => mask_functional
  | SeqLabel _ | Scalar _ => True
  end.

(** The list objects of the two generators are allocated and distinct. *)
Definition separate (st : frame * frame * gmap positive (list example) * W) : Prop :=
  let '(g1, g2, σ, _) := st in
  (∀ l, examples_loc g1 = Some l → l ∈ dom σ) ∧
  (∀ l, examples_loc g2 = Some l → l ∈ dom σ) ∧
  (∀ l1 l2, examples_loc g1 = Some l1 → examples_loc g2 = Some l2 → l1 ≠ l2).

(** The contract of the masking transform: both buffers it returns are as
    long as the token ids it is given. *)
Definition mask_keeps_length : Prop :=
  ∀ w t,
    length (apply_bert_mask w t).1.1 = length t ∧
    length (apply_bert_mask w t).1.2 = length t.

(** ** Facts on the loops *)

Lemma then_stream_nil_r s : then_stream s ([], None) = s.
Proof. destruct s as [es [e|]]; simpl; [done | by rewrite app_nil_r]. Qed.

Lemma seq_tail_after a k pre i idx' :
  seq a k = pre ++ i :: idx' → idx' = seq (S i) (a + k - S i).
Proof.
  revert a pre. induction k as [|k IH]; intros a pre Heq; simpl in Heq.
  - by destruct pre.
  - destruct pre as [|p pre]; simpl in Heq; injection Heq as Ha Hrest.
    + subst. f_equal. lia.
    + apply IH in Hrest. rewrite Hrest. f_equal. lia.
Qed.

Lemma range_from_tail d a pre i idx' :
  range_from d a = pre ++ i :: idx' → idx' = range_from d (S i).
Proof.
  unfold range_from. intros Heq.
  assert (length (lengths d) - a ≠ 0)%nat as Hne.
  { intros H0. rewrite H0 in Heq. by destruct pre. }
  apply seq_tail_after in Heq. rewrite Heq. f_equal. lia.
Qed.

Lemma fills_iff need es :
  fills need es = true ↔ 1 <= need <= Z.of_nat (length es).
Proof. unfold fills. rewrite andb_true_iff. lia. Qed.

Lemma fills_true need es :
  1 <= need <= Z.of_nat (length es) → fills need es = true.
Proof. apply fills_iff. Qed.

Lemma fills_false need es :
  ¬ (1 <= need <= Z.of_nat (length es)) → fills need es = false.
Proof. rewrite <- fills_iff. by destruct (fills need es). Qed.

Lemma fills_nil need : fills need [] = false.
Proof. apply fills_false. simpl. lia. Qed.

(** Case analysis on a [fills] test. *)
Ltac case_fills n es H :=
  destruct (fills n es) eqn:H;
  [apply fills_iff in H
  |apply not_true_iff_false in H; rewrite fills_iff in H].

(** The loop over one archive against the examples it builds: it stops at
    the [yield] when the accumulator gets full within them, and then the
    examples after the cut are still to come; otherwise it takes them
    all. *)
Lemma file_loop_spec v B d idx offset acc :
  let s := file_stream v d idx offset in
  let need := B - Z.of_nat (length acc) in
  if fills need s.1 then
    ∃ i offset' pre idx',
      file_loop v B d idx offset acc
        = (AtYield i offset', acc ++ take (Z.to_nat need) s.1) ∧
      idx = pre ++ i :: idx' ∧
      match np.getitem (lengths d) i with
      | Ok len_i => file_stream v d idx' (offset' + len_i)
      | Raise e => ([], Some e)
      end = (drop (Z.to_nat need) s.1, s.2)
  else
    file_loop v B d idx offset acc
      = (match s.2 with None => RangeDone | Some e => Raised e end, acc ++ s.1).
Proof.
  revert offset acc. induction idx as [|i idx IH]; intros offset acc; simpl.
  - rewrite fills_nil, app_nil_r. done.
  - destruct (np.getitem (lengths d) i) as [len_i|e] eqn:Hget; simpl;
      [|by rewrite fills_nil, app_nil_r].
    destruct (make_example v d i offset len_i) as [ex|e] eqn:Hex; simpl;
      [|by rewrite fills_nil, app_nil_r].
    specialize (IH (offset + len_i) (acc ++ [ex])).
    destruct (file_stream v d idx (offset + len_i)) as [es t] eqn:Hs.
    simpl in *. rewrite length_app in *. simpl in *.
    set (need := B - Z.of_nat (length acc)) in *.
    replace (B - Z.of_nat (length acc + 1)) with (need - 1) in IH by lia.
    destruct (Z.eqb_spec (Z.of_nat (length acc + 1)) B) as [HB|HB].
    + assert (need = 1) as -> by lia.
      rewrite (fills_true 1 (ex :: es)) by (simpl; lia).
      exists i, offset, [], idx. rewrite Hget. done.
    + case_fills (need - 1) es Hf.
      * rewrite (fills_true need (ex :: es)) by (simpl; lia).
        destruct IH as (i' & offset' & pre & idx' & Hrun & Hidx & Hrest).
        exists i', offset', (i :: pre), idx'.
        replace (Z.to_nat need) with (S (Z.to_nat (need - 1))) by lia.
        rewrite Hrun, Hidx, Hrest, <- app_assoc. done.
      * rewrite (fills_false need (ex :: es)) by (simpl; lia).
        rewrite IH, <- app_assoc. done.
Qed.
Lemma pending49_eq v rest d i offset w s :
  match np.getitem (lengths d) i with
  | Ok len_i => file_stream v d (range_from d (S i)) (offset + len_i)
  | Raise e => ([], Some e)
  end = s →
  pending49 v rest d i offset w = then_stream s (files_stream v rest w).
Proof. unfold pending49. intros <-. by destruct (np.getitem _ _). Qed.

Lemma files_loop_spec v B files w acc :
  let s := files_stream v files w in
  let need := B - Z.of_nat (length acc) in
  if fills need s.1 then
    ∃ rest d i offset w',
      files_loop v B files w acc
        = (Suspend49 rest d i offset, acc ++ take (Z.to_nat need) s.1, w') ∧
      pending49 v rest d i offset w' = (drop (Z.to_nat need) s.1, s.2)
  else
    ∃ w', files_loop v B files w acc
            = (final_outcome s.2 (acc ++ s.1), acc ++ s.1, w').
Proof.
  revert w acc. induction files as [|f rest IH]; intros w acc; simpl.
  - rewrite fills_nil, app_nil_r. exists w. by destruct (0 <? _).
  - destruct (load v w f) as [[d|e] w'] eqn:Hload; simpl;
      [|rewrite fills_nil, app_nil_r; by exists w'].
    pose proof (file_loop_spec v B d (range_from d 0) 0 acc) as Hfile.
    destruct (file_stream v d (range_from d 0) 0) as [es1 t1] eqn:Hs1.
    simpl in Hfile.
    set (need := B - Z.of_nat (length acc)) in *.
    case_fills need es1 Hf.
    + destruct Hfile as (i & offset' & pre & idx' & Hrun & Hidx & Hrest).
      apply range_from_tail in Hidx as ->.
      assert (fills need (then_stream (es1, t1) (files_stream v rest w')).1 = true
              ∧ take (Z.to_nat need) (then_stream (es1, t1) (files_stream v rest w')).1
                = take (Z.to_nat need) es1
              ∧ then_stream (drop (Z.to_nat need) es1, t1) (files_stream v rest w')
                = (drop (Z.to_nat need) (then_stream (es1, t1) (files_stream v rest w')).1,
                   (then_stream (es1, t1) (files_stream v rest w')).2))
        as (-> & -> & Hpend).
      { destruct t1; simpl; [by rewrite fills_true|].
        split_and!.
        - apply fills_true. rewrite length_app. lia.
        - apply take_app_le. lia.
        - rewrite drop_app_le by lia. done. }
      exists rest, d, i, offset', w'. rewrite Hrun. split; [done|].
      rewrite (pending49_eq _ _ _ _ _ _ _ Hrest). exact Hpend.
    + rewrite Hfile. destruct t1 as [e|]; simpl.
      * rewrite fills_false by done. by exists w'.
      * specialize (IH w' (acc ++ es1)).
        destruct (files_stream v rest w') as [es2 t2]. simpl in *.
        rewrite length_app in IH.
        replace (B - Z.of_nat (length acc + length es1))
          with (need - Z.of_nat (length es1)) in IH by lia.
        case_fills (need - Z.of_nat (length es1)) es2 Hf2.
        -- rewrite fills_true by (rewrite length_app; lia).
           destruct IH as (rest' & d' & i' & offset' & w'' & -> & Hpend).
           exists rest', d', i', offset', w''. split.
           ++ rewrite <- app_assoc. do 2 f_equal. f_equal.
              rewrite take_app_ge by lia. do 2 f_equal. lia.
           ++ rewrite Hpend. f_equal. rewrite drop_app_ge by lia. f_equal. lia.
        -- rewrite fills_false by (rewrite length_app; lia).
           destruct IH as [w'' ->]. exists w''. by rewrite <- app_assoc.
Qed.

Lemma resume49_spec v B rest d i offset w :
  let s := pending49 v rest d i offset w in
  if fills B s.1 then
    ∃ rest' d' i' offset' w',
      resume49 v B rest d i offset w
        = (Suspend49 rest' d' i' offset', take (Z.to_nat B) s.1, w') ∧
      pending49 v rest' d' i' offset' w' = (drop (Z.to_nat B) s.1, s.2)
  else
    ∃ w', resume49 v B rest d i offset w = (final_outcome s.2 s.1, s.1, w').
Proof.
  rewrite (pending49_eq v rest d i offset w _ eq_refl). unfold resume49.
  destruct (np.getitem (lengths d) i) as [len_i|e] eqn:Hget; simpl;
    [|rewrite fills_nil; by exists w].
  pose proof (file_loop_spec v B d (range_from d (S i)) (offset + len_i) []) as Hfile.
  destruct (file_stream v d (range_from d (S i)) (offset + len_i)) as [es1 t1] eqn:Hs1.
  simpl in Hfile. rewrite Z.sub_0_r in Hfile.
  case_fills B es1 Hf.
  - destruct Hfile as (i' & offset' & pre & idx' & Hrun & Hidx & Hrest).
    apply range_from_tail in Hidx as ->.
    rewrite Hrun. simpl.
    destruct t1 as [e|]; simpl.
    + rewrite fills_true by done.
      exists rest, d, i', offset', w. split; [done|].
      by rewrite (pending49_eq _ _ _ _ _ _ _ Hrest).
    + rewrite fills_true by (rewrite length_app; lia).
      exists rest, d, i', offset', w. rewrite take_app_le by lia. split; [done|].
      rewrite (pending49_eq _ _ _ _ _ _ _ Hrest). simpl.
      by rewrite drop_app_le by lia.
  - rewrite Hfile. simpl. destruct t1 as [e|]; simpl.
    + rewrite fills_false by done. by exists w.
    + pose proof (files_loop_spec v B rest w es1) as Hfiles.
      destruct (files_stream v rest w) as [es2 t2]. simpl in *.
      case_fills (B - Z.of_nat (length es1)) es2 Hf2.
      * rewrite fills_true by (rewrite length_app; lia).
        destruct Hfiles as (rest' & d' & i' & offset' & w' & -> & Hpend).
        exists rest', d', i', offset', w'. split.
        -- do 2 f_equal. rewrite take_app_ge by lia. do 2 f_equal. lia.
        -- rewrite Hpend. f_equal. rewrite drop_app_ge by lia. f_equal. lia.
      * rewrite fills_false by (rewrite length_app; lia).
        destruct Hfiles as [w' ->]. by exists w'.
Qed.

(** One call of [next] against the examples still to come: a full batch
    is cut from their front when there are enough; otherwise they all go
    into the last batch, or the exception that ends them is raised.  The
    list written is the generator's own. *)
Lemma next_spec r g σ w :
  live g →
  let s := pending r g w in
  let B := batch_size r in
  let l := own_loc g σ in
  if fills B s.1 then
    ∃ g' w',
      next r g σ w = (Yield l, g', <[l := take (Z.to_nat B) s.1]> σ, w') ∧
      live g' ∧ examples_loc g' = Some l ∧
      pending r g' w' = (drop (Z.to_nat B) s.1, s.2)
  else
    ∃ w',
      next r g σ w =
        match s.2 with
        | Some e => (Error e, Finished, <[l := s.1]> σ, w')
        | None =>
          if 0 <? Z.of_nat (length s.1)
          then (Yield l, AtYield53 l, <[l := s.1]> σ, w')
          else (StopIteration, Finished, <[l := s.1]> σ, w')
        end.
Proof.
  destruct g as [|l rest d i offset| |]; simpl; try done; intros _.
  - pose proof (files_loop_spec (r_variant r) (batch_size r) (filenames r) w []) as H.
    simpl in H. rewrite Z.sub_0_r in H.
    destruct (fills _ _).
    + destruct H as (rest & d & i & offset & w' & -> & Hpend).
      by exists (AtYield49 (fresh (dom σ)) rest d i offset), w'.
    + destruct H as [w' ->]. exists w'.
      unfold final_outcome. destruct (files_stream _ _ _).2; [done|].
      by destruct (0 <? _).
  - pose proof (resume49_spec (r_variant r) (batch_size r) rest d i offset w) as H.
    simpl in H.
    destruct (fills _ _).
    + destruct H as (rest' & d' & i' & offset' & w' & -> & Hpend).
      by exists (AtYield49 l rest' d' i' offset'), w'.
    + destruct H as [w' ->]. exists w'.
      unfold final_outcome. destruct (pending49 _ _ _ _ _ _).2; [done|].
      by destruct (0 <? _).
Qed.

Lemma split_full_fuel B n m es :
  (length es ≤ n)%nat → (length es ≤ m)%nat → split_full n B es = split_full m B es.
Proof.
  revert m es. induction n as [|n IH]; intros m es Hn Hm.
  - destruct es; [|simpl in Hn; lia]. destruct m; [done|]. simpl.
    by rewrite (fills_nil B).
  - destruct m as [|m].
    + destruct es; [|simpl in Hm; lia]. simpl. by rewrite (fills_nil B).
    + simpl. case_fills B es Hf; [|done].
      rewrite (IH m) by (rewrite length_drop; lia). done.
Qed.

(** A pass yields the batches of its examples, each read when it is
    yielded, given fuel for every call of [next]. *)
Lemma consume_batching r g σ w fuel :
  live g →
  (length (pending r g w).1 < fuel)%nat →
  consume fuel r g σ w = batching (batch_size r) (pending r g w).
Proof.
  revert g σ w. induction fuel as [|fuel IH]; intros g σ w Hlive Hfuel; [lia|].
  pose proof (next_spec r g σ w Hlive) as Hnext. simpl in Hnext.
  destruct (pending r g w) as [es t] eqn:Hp. simpl in *.
  unfold batching. simpl.
  case_fills (batch_size r) es Hf.
  - destruct Hnext as (g' & w' & -> & Hlive' & _ & Hp').
    rewrite IH by (try done; rewrite Hp'; simpl; rewrite length_drop; lia).
    rewrite Hp'. unfold batching. simpl.
    destruct (length es) as [|n] eqn:Hlen; [lia|]. simpl.
    rewrite fills_true by lia.
    rewrite (split_full_fuel _ _ n) by (rewrite ?length_drop; lia).
    destruct (split_full n (batch_size r) (drop _ es)) as [bs rem].
    destruct t; [|destruct (0 <? _)]; simpl; by rewrite lookup_total_insert_eq.
  - assert (split_full (length es) (batch_size r) es = ([], es)) as ->.
    { destruct (length es) eqn:Hlen; [done|]. simpl.
      by rewrite fills_false by lia. }
    destruct Hnext as (w' & ->).
    destruct t as [e|]; [done|].
    destruct (0 <? Z.of_nat (length es)) eqn:Hpos; [|done].
    rewrite lookup_total_insert_eq.
    destruct fuel as [|fuel]; [lia|]. done.
Qed.

(** ** Facts on slices and reshapes *)

Lemma slice_inside (a : list Z) (start len : Z) :
  0 <= start → 0 <= len → start + len <= Z.of_nat (length a) →
  np.slice a start (start + len) = take (Z.to_nat len) (drop (Z.to_nat start) a).
Proof.
  intros Hs Hl Hin. unfold np.slice, np.clip.
  destruct (Z.ltb_spec start 0); [lia|].
  destruct (Z.ltb_spec (start + len) 0); [lia|].
  rewrite !Z.min_l by lia. do 2 f_equal. lia.
Qed.

Lemma slice_inside_length (a : list Z) (start len : Z) :
  0 <= start → 0 <= len → start + len <= Z.of_nat (length a) →
  Z.of_nat (length (np.slice a start (start + len))) = len.
Proof.
  intros Hs Hl Hin. rewrite slice_inside by done.
  rewrite length_take, length_drop. lia.
Qed.


Lemma slice_one (a : list Z) (i : nat) (x : Z) :
  a !! i = Some x → np.slice a (Z.of_nat i) (Z.of_nat i + 1) = [x].
Proof.
  intros Hi. pose proof (lookup_lt_Some _ _ _ Hi) as Hlt.
  rewrite slice_inside by lia. rewrite Nat2Z.id.
  change (Z.to_nat 1) with 1%nat.
  rewrite (drop_S _ _ _ Hi). simpl. by rewrite take_0.
Qed.

Lemma arange_length (n : Z) : Z.of_nat (length (np.arange n)) = Z.max 0 n.
Proof. unfold np.arange. rewrite length_fmap, length_seq. lia. Qed.

Lemma arange_lookup (n : Z) (k : nat) :
  (Z.of_nat k < n) → np.arange n !! k = Some (Z.of_nat k).
Proof.
  intros Hk. unfold np.arange. rewrite list_lookup_fmap.
  rewrite lookup_seq_lt by lia. done.
Qed.

Lemma reshape_column (a : list Z) (rows : Z) :
  0 <= rows → Z.of_nat (length a) = rows → np.reshape a rows 1 = Ok (column rows a).
Proof.
  intros Hr Hlen. unfold np.reshape.
  destruct (Z.ltb_spec rows 0); [lia|]. simpl.
  rewrite Z.mul_1_r, Hlen, Z.eqb_refl. done.
Qed.

(** With a non-negative row count, [reshape(rows, 1)] succeeds only on
    exactly [rows] elements. *)
Lemma reshape_column_inv (a : list Z) (rows : Z) (x : np.ndarray) :
  0 <= rows → np.reshape a rows 1 = Ok x →
  x = column rows a ∧ Z.of_nat (length a) = rows.
Proof.
  intros Hr. unfold np.reshape.
  destruct (Z.ltb_spec rows 0); [lia|]. simpl.
  destruct (Z.eqb_spec (rows * 1) (Z.of_nat (length a))); [|done].
  intros [= <-]. split; [done | lia].
Qed.



(** ** Facts on offsets *)

Lemma sum_app (a b : list Z) : sum (a ++ b) = sum a + sum b.
Proof. unfold sum. induction a as [|x a IH]; simpl; lia. Qed.

Lemma sum_nonneg (a : list Z) : Forall (λ x, 0 <= x) a → 0 <= sum a.
Proof. unfold sum. induction 1; simpl; lia. Qed.

Lemma offset_of_0 d : offset_of d 0 = 0.
Proof. done. Qed.

Lemma offset_of_S d i len_i :
  lengths d !! i = Some len_i → offset_of d (S i) = offset_of d i + len_i.
Proof.
  intros Hi. unfold offset_of. rewrite (take_S_r _ _ _ Hi), sum_app.
  unfold sum at 2. simpl. lia.
Qed.

Lemma offset_of_bounds d i :
  Forall (λ x, 0 <= x) (lengths d) →
  0 <= offset_of d i <= sum (lengths d).
Proof.
  intros Hpos. unfold offset_of.
  rewrite <- (take_drop i (lengths d)) at 3. rewrite sum_app.
  pose proof (sum_nonneg (take i (lengths d)) (Forall_take _ _ _ Hpos)).
  pose proof (sum_nonneg (drop i (lengths d)) (Forall_drop _ _ _ Hpos)).
  lia.
Qed.

(** ** The examples of archives that fit *)

Lemma well_formed_fits v d : well_formed v d → fits v d.
Proof.
  intros (Hpos & Hsum & Hlab). split_and!; [done|lia|].
  destruct (per_example v); lia.
Qed.

Lemma Forall_well_formed_fits v ds : Forall (well_formed v) ds → Forall (fits v) ds.
Proof. intros H. eapply Forall_impl; [done|]. apply well_formed_fits. Qed.

(** On an archive that fits the loop body builds example [i] as the
    specification words it. *)
Lemma make_example_fits v d i len_i :
  fits v d → lengths d !! i = Some len_i →
  make_example v d i (offset_of d i) len_i = Ok (spec_example v d i).
Proof.
  intros (Hpos & Hsum & Hlab) Hi.
  pose proof (offset_of_bounds d i Hpos) as Hoff.
  pose proof (offset_of_bounds d (S i) Hpos) as Hoff'.
  rewrite (offset_of_S _ _ _ Hi) in Hoff'.
  assert (0 <= len_i) as Hlen.
  { by eapply (Forall_lookup_1 _ _ _ _ Hpos). }
  unfold make_example, spec_example. rewrite Hi. simpl.
  rewrite reshape_column; [|done|apply slice_inside_length; lia]. simpl.
  rewrite reshape_column; [|done|rewrite arange_length; lia]. simpl.
  destruct v as [|name|name]; simpl in *.
  - rewrite reshape_column; [done|done|apply slice_inside_length; lia].
  - rewrite reshape_column; [done|done|apply slice_inside_length; lia].
  - pose proof (lookup_lt_Some _ _ _ Hi) as Hlt.
    destruct (lookup_lt_is_Some_2 (labels d) i) as [x Hx]; [lia|].
    rewrite (slice_one _ _ _ Hx). done.
Qed.

Lemma file_stream_fits_from v d k i :
  fits v d → (i + k = length (lengths d))%nat →
  file_stream v d (seq i k) (offset_of d i) = (spec_example v d <$> seq i k, None).
Proof.
  intros Hwf. revert i. induction k as [|k IH]; intros i Hik; [done|].
  simpl. unfold np.getitem.
  destruct (lookup_lt_is_Some_2 (lengths d) i) as [len_i Hi]; [lia|].
  rewrite Hi, (make_example_fits _ _ _ _ Hwf Hi).
  rewrite <- (offset_of_S _ _ _ Hi), IH by lia. done.
Qed.

Lemma file_stream_fits v d :
  fits v d →
  file_stream v d (range_from d 0) 0 = (spec_examples v d, None).
Proof.
  intros Hwf. unfold range_from, spec_examples. rewrite Nat.sub_0_r.
  rewrite <- (offset_of_0 d). by apply file_stream_fits_from.
Qed.

Lemma files_stream_fits v files w ds w' :
  load_all v files w = (Ok ds, w') → Forall (fits v) ds →
  files_stream v files w = (concat (spec_examples v <$> ds), None).
Proof.
  revert w ds. induction files as [|f rest IH]; intros w ds; simpl.
  - by intros [= <- <-] _.
  - destruct (load v w f) as [[d|e] w1]; [|done].
    destruct (load_all v rest w1) as [[ds1|e] w2] eqn:Hrest; [|done].
    intros [= <- <-] Hwf. apply Forall_cons in Hwf as [Hd Hds].
    rewrite (file_stream_fits _ _ Hd), (IH _ _ Hrest Hds). done.
Qed.

Lemma spec_examples_length v d : length (spec_examples v d) = length (lengths d).
Proof. unfold spec_examples. by rewrite length_fmap, length_seq. Qed.

Lemma all_examples_length v ds :
  length (concat (spec_examples v <$> ds)) = total_examples ds.
Proof.
  induction ds as [|d ds IH]; [done|]. rewrite fmap_cons. simpl.
  rewrite length_app, spec_examples_length. by f_equal.
Qed.

(** ** Facts on batching *)

Lemma split_full_concat B n es :
  concat (split_full n B es).1 ++ (split_full n B es).2 = es.
Proof.
  revert es. induction n as [|n IH]; intros es; simpl; [done|].
  destruct (fills B es); [|done].
  specialize (IH (drop (Z.to_nat B) es)).
  destruct (split_full n B (drop (Z.to_nat B) es)) as [bs r]. simpl in *.
  by rewrite <- app_assoc, IH, take_drop.
Qed.

Lemma split_full_never B n es : B <= 0 → split_full n B es = ([], es).
Proof.
  intros HB. destruct n; simpl; [done|]. rewrite fills_false by lia. done.
Qed.

Lemma split_full_shape B n es :
  1 <= B → (length es ≤ n)%nat →
  Forall (λ b, Z.of_nat (length b) = B) (split_full n B es).1 ∧
  Z.of_nat (length (split_full n B es).1) = Z.of_nat (length es) / B ∧
  Z.of_nat (length (split_full n B es).2) = Z.of_nat (length es) mod B.
Proof.
  intros HB. revert es. induction n as [|n IH]; intros es Hn; simpl.
  - destruct es; [|simpl in Hn; lia]. simpl.
    rewrite Z.div_0_l, Z.mod_0_l by lia. done.
  - case_fills B es Hf.
    + specialize (IH (drop (Z.to_nat B) es)).
      rewrite length_drop in IH.
      destruct (split_full n B (drop (Z.to_nat B) es)) as [bs r]. simpl in *.
      destruct IH as (Hall & Hbs & Hr); [lia|].
      replace (Z.of_nat (length es - Z.to_nat B))
        with (Z.of_nat (length es) + (-1) * B) in Hbs, Hr by lia.
      rewrite Z.div_add in Hbs by lia. rewrite Z.mod_add in Hr by lia.
      split_and!; [|lia|done].
      constructor; [|done]. rewrite length_take. lia.
    + simpl. rewrite Z.div_small, Z.mod_small by lia. done.
Qed.

Lemma ceil_div_eq N B :
  1 <= B → 0 <= N →
  ceil_div N B = N / B + (if N mod B =? 0 then 0 else 1).
Proof.
  intros HB HN. unfold ceil_div.
  pose proof (Z.div_mod N B ltac:(lia)) as Hdm.
  pose proof (Z.mod_pos_bound N B ltac:(lia)) as Hm.
  destruct (Z.eqb_spec (N mod B) 0) as [H0|H0].
  - symmetry. apply (Z.div_unique _ _ _ (B - 1)); lia.
  - symmetry. apply (Z.div_unique _ _ _ (N mod B - 1)); lia.
Qed.

(** The batches of a stream that ends without an exception, for a
    positive batch size. *)
Lemma batching_exact B es :
  1 <= B →
  let N := Z.of_nat (length es) in
  ∃ bs,
    batching B (es, None) = (bs, Some Completed) ∧
    concat bs = es ∧
    Z.of_nat (length bs) = ceil_div N B ∧
    (∀ (k : nat) b, Z.of_nat k < N / B → bs !! k = Some b → Z.of_nat (length b) = B) ∧
    (N mod B ≠ 0 →
     ∃ b, bs !! Z.to_nat (N / B) = Some b ∧ Z.of_nat (length b) = N mod B ∧
          Z.of_nat (length bs) = N / B + 1) ∧
    (N mod B = 0 → Z.of_nat (length bs) = N / B).
Proof.
  intros HB N. unfold batching. simpl.
  pose proof (split_full_concat B (length es) es) as Hcat.
  pose proof (split_full_shape B (length es) es HB (le_n _)) as (Hall & Hbs & Hr).
  destruct (split_full (length es) B es) as [bs r]. simpl in *. fold N in Hbs, Hr.
  rewrite ceil_div_eq by lia.
  destruct (Z.ltb_spec 0 (Z.of_nat (length r))) as [Hpos|Hzero].
  - exists (bs ++ [r]). split_and!.
    + done.
    + rewrite concat_app. simpl. by rewrite app_nil_r.
    + rewrite length_app. simpl. destruct (Z.eqb_spec (N mod B) 0); lia.
    + intros k b Hk Hb. rewrite lookup_app_l in Hb by lia.
      by eapply (Forall_lookup_1 _ _ _ _ Hall).
    + intros _. exists r. split_and!; [|done|rewrite length_app; simpl; lia].
      rewrite <- Hbs, Nat2Z.id. by rewrite list_lookup_middle.
    + lia.
  - assert (r = []) as -> by (destruct r; [done | simpl in Hzero; lia]).
    exists bs. rewrite app_nil_r in Hcat. simpl in Hr. split_and!.
    + done.
    + done.
    + destruct (Z.eqb_spec (N mod B) 0); lia.
    + intros k b Hk Hb. by eapply (Forall_lookup_1 _ _ _ _ Hall).
    + lia.
    + lia.
Qed.

(** The batches of such a stream when no batch ever gets full. *)
Lemma batching_never B es :
  B <= 0 →
  batching B (es, None) = (if 0 <? Z.of_nat (length es) then [es] else [], Some Completed).
Proof. intros HB. unfold batching. simpl. by rewrite split_full_never. Qed.

(** A pass over archives that fit yields the batches of their examples,
    in the order of the files and of the entries of [lengths]. *)
Lemma consume_fits r σ w ds fuel :
  (load_all (r_variant r) (filenames r) w).1 = Ok ds →
  Forall (fits (r_variant r)) ds →
  (total_examples ds < fuel)%nat →
  consume fuel r (call_reader r) σ w
    = batching (batch_size r) (concat (spec_examples (r_variant r) <$> ds), None).
Proof.
  intros Hload Hwf Hfuel.
  destruct (load_all (r_variant r) (filenames r) w) as [res w'] eqn:Hall.
  simpl in Hload. subst res.
  pose proof (files_stream_fits _ _ _ _ _ Hall Hwf) as Hs.
  rewrite consume_batching.
  - simpl. by rewrite Hs.
  - done.
  - simpl. rewrite Hs. simpl. by rewrite all_examples_length.
Qed.

Lemma batching_concat B es :
  ∃ bs, batching B (es, None) = (bs, Some Completed) ∧ concat bs = es.
Proof.
  unfold batching. simpl.
  pose proof (split_full_concat B (length es) es) as Hcat.
  destruct (split_full (length es) B es) as [bs r]. simpl in *.
  destruct (Z.ltb_spec 0 (Z.of_nat (length r))).
  - exists (bs ++ [r]). split; [done|].
    rewrite concat_app. simpl. by rewrite app_nil_r.
  - exists bs. split; [done|]. destruct r; [|simpl in *; lia].
    by rewrite app_nil_r in Hcat.
Qed.

(** Where example [i] of archive [j] stands among all examples. *)
Lemma all_examples_lookup v ds j d i :
  ds !! j = Some d → (i < length (lengths d))%nat →
  concat (spec_examples v <$> ds) !! (examples_before ds j + i)%nat
    = Some (spec_example v d i).
Proof.
  revert j. induction ds as [|d0 ds IH]; intros j Hj Hi; [done|].
  rewrite fmap_cons. simpl. destruct j as [|j]; simpl in *.
  - injection Hj as ->. rewrite lookup_app_l by (by rewrite spec_examples_length).
    unfold spec_examples. rewrite list_lookup_fmap, lookup_seq_lt by done. done.
  - rewrite lookup_app_r by (rewrite spec_examples_length; unfold examples_before; simpl; lia).
    rewrite spec_examples_length. unfold examples_before in *. simpl.
    rewrite <- (IH j Hj Hi). f_equal. lia.
Qed.

(** What the labelled readers keep of an archive are its fields. *)
Lemma load_labelled v name w filename d w' :
  v = SeqLabel name ∨ v = Scalar name →
  load v w filename = (Ok d, w') →
  ∃ data, fs !! filename = Some data ∧
    data !! "token_ids" = Some (token_ids d) ∧
    data !! name = Some (labels d) ∧
    data !! "lengths" = Some (lengths d).
Proof.
  unfold load, np_load, field, bind.
  intros [-> | ->] Hload; destruct (fs !! filename) as [data|]; try done;
    exists data; repeat case_match; simplify_eq; done.
Qed.

Lemma load_all_lookup v files w ds w' j d :
  load_all v files w = (Ok ds, w') → ds !! j = Some d →
  ∃ filename w1 w2, files !! j = Some filename ∧ load v w1 filename = (Ok d, w2).
Proof.
  revert w ds j. induction files as [|f rest IH]; intros w ds j; simpl.
  - by intros [= <- <-].
  - destruct (load v w f) as [[d0|e] w1] eqn:Hload; [|done].
    destruct (load_all v rest w1) as [[ds1|e] w2] eqn:Hrest; [|done].
    intros [= <- <-] Hj. destruct j as [|j]; simpl in *.
    + injection Hj as <-. by exists f, w, w1.
    + eauto.
Qed.

(** ** Archives whose lengths run past the token buffer *)


Lemma make_example_full_rows v d i offset len_i ex :
  0 <= len_i → make_example v d i offset len_i = Ok ex → full_rows ex.
Proof.
  intros Hlen. unfold make_example, bind.
  destruct (np.reshape (np.slice _ _ _) len_i 1) as [t|] eqn:Ht; [|done].
  destruct (np.reshape (np.arange len_i) len_i 1) as [p|] eqn:Hp; [|done].
  apply reshape_column_inv in Ht as [-> Htl]; [|done].
  apply reshape_column_inv in Hp as [-> _]; [|done].
  case_match; [|done]. intros [= <-]. by exists len_i.
Qed.

Lemma spec_example_full_rows v d i :
  fits v d → (i < length (lengths d))%nat → full_rows (spec_example v d i).
Proof.
  intros Hwf Hi.
  destruct (lookup_lt_is_Some_2 (lengths d) i) as [len_i Hl]; [done|].
  pose proof (make_example_fits _ _ _ _ Hwf Hl) as Hex.
  eapply make_example_full_rows; [|done].
  destruct Hwf as (Hpos & _). by eapply (Forall_lookup_1 _ _ _ _ Hpos).
Qed.

Lemma files_stream_app v pre rest w ds w1 :
  load_all v pre w = (Ok ds, w1) →
  files_stream v (pre ++ rest) w
    = then_stream (files_stream v pre w) (files_stream v rest w1).
Proof.
  revert w ds. induction pre as [|f pre IH]; intros w ds; simpl.
  - intros [= <- <-]. by destruct (files_stream v rest w).
  - destruct (load v w f) as [[d|e] w2]; [|done].
    destruct (load_all v pre w2) as [[ds1|e] w3] eqn:Hpre; [|done].
    intros [= <- <-]. rewrite (IH _ _ Hpre).
    destruct (file_stream v d (range_from d 0) 0) as [es [e|]]; [done|].
    destruct (files_stream v pre w2) as [es2 [e|]]; simpl; [done|].
    by rewrite app_assoc.
Qed.


(** ** Facts on two passes *)

Lemma load_indep v w w' filename :
  repeatable v → (load v w filename).1 = (load v w' filename).1.
Proof.
  intros Hrep. unfold load. destruct (np_load filename) as [data|]; [|done].
  destruct v; [|done|done].
  destruct (field data "token_ids") as [t|]; [|done].
  specialize (Hrep w w' t).
  destruct (apply_bert_mask w t) as [[m1 l1] w1].
  destruct (apply_bert_mask w' t) as [[m2 l2] w2].
  simpl in Hrep. by injection Hrep as -> ->.
Qed.

Lemma files_loop_indep v B files w w' acc :
  repeatable v →
  (files_loop v B files w acc).1 = (files_loop v B files w' acc).1.
Proof.
  intros Hrep. revert w w' acc. induction files as [|f rest IH]; intros w w' acc; simpl.
  - by destruct (0 <? _).
  - pose proof (load_indep v w w' f Hrep) as Hload.
    destruct (load v w f) as [[d|e] w1], (load v w' f) as [[d'|e'] w1'];
      simpl in Hload; simplify_eq; [|done].
    destruct (file_loop v B d' (range_from d' 0) 0 acc) as [x acc'].
    destruct (loop_outcome rest d' x); [done|]. apply IH.
Qed.

Lemma resume49_indep v B rest d i offset w w' :
  repeatable v →
  (resume49 v B rest d i offset w).1 = (resume49 v B rest d i offset w').1.
Proof.
  intros Hrep. unfold resume49. destruct (np.getitem _ _); [|done].
  destruct (file_loop _ _ _ _ _ _) as [x acc].
  destruct (loop_outcome rest d x); [done|]. by apply files_loop_indep.
Qed.

Lemma settle_observe l run σ :
  let '(rep, g, σ', _) := settle l run σ in
  observe rep σ' = match run.1.1 with
                   | Suspend49 _ _ _ _ | Suspend53 => SawBatch run.1.2
                   | Return_ => SawStop
                   | Throw e => SawError e
                   end.
Proof.
  destruct run as [[o acc] w]. destruct o; simpl; try done;
    by rewrite lookup_total_insert_eq.
Qed.

Lemma settle_ctrl l l' run run' σ σ' :
  run.1 = run'.1 → same_ctrl (settle l run σ).1.1.2 (settle l' run' σ').1.1.2.
Proof.
  destruct run as [[o acc] w], run' as [[o' acc'] w']. simpl. intros [= <- <-].
  by destruct o.
Qed.

(** What the consumer sees of a call of [next], and where the body stops,
    depend on where the body stood only: not on the heap, nor (for a
    repeatable reader) on the world. *)
Lemma next_indep r g h σ σ' w w' :
  repeatable (r_variant r) → same_ctrl g h →
  let '(rep, g', σ1, _) := next r g σ w in
  let '(rep', h', σ1', _) := next r h σ' w' in
  observe rep σ1 = observe rep' σ1' ∧ same_ctrl g' h'.
Proof.
  intros Hrep Hsame.
  destruct g as [|l rest d i offset|l|], h as [|l' rest' d' i' offset'|l'|];
    simpl in Hsame; try done.
  - simpl.
    pose proof (files_loop_indep (r_variant r) (batch_size r) (filenames r) w w' [] Hrep) as Hrun.
    pose proof (settle_observe (fresh (dom σ)) (files_loop (r_variant r) (batch_size r) (filenames r) w []) σ) as H1.
    pose proof (settle_observe (fresh (dom σ')) (files_loop (r_variant r) (batch_size r) (filenames r) w' []) σ') as H2.
    pose proof (settle_ctrl (fresh (dom σ)) (fresh (dom σ')) _ _ σ σ' Hrun) as H3.
    destruct (settle (fresh (dom σ)) _ σ) as [[[rep g'] σ1] w1].
    destruct (settle (fresh (dom σ')) _ σ') as [[[rep' h'] σ1'] w1'].
    rewrite H1, H2, Hrun. done.
  - destruct Hsame as (<- & <- & <- & <-). simpl.
    pose proof (resume49_indep (r_variant r) (batch_size r) rest d i offset w w' Hrep) as Hrun.
    pose proof (settle_observe l (resume49 (r_variant r) (batch_size r) rest d i offset w) σ) as H1.
    pose proof (settle_observe l' (resume49 (r_variant r) (batch_size r) rest d i offset w') σ') as H2.
    pose proof (settle_ctrl l l' _ _ σ σ' Hrun) as H3.
    destruct (settle l _ σ) as [[[rep g'] σ1] w1].
    destruct (settle l' _ σ') as [[[rep' h'] σ1'] w1'].
    rewrite H1, H2, Hrun. done.
Qed.

(** Under any schedule each of the two consumers sees what it would see
    of its generator run alone. *)
Lemma interleave_solo r sched g1 g2 σ w h1 σ1 w1 h2 σ2 w2 :
  repeatable (r_variant r) → same_ctrl g1 h1 → same_ctrl g2 h2 →
  seen true (interleave r r sched (g1, g2, σ, w)).1 = solo r (calls true sched) h1 σ1 w1 ∧
  seen false (interleave r r sched (g1, g2, σ, w)).1 = solo r (calls false sched) h2 σ2 w2.
Proof.
  intros Hrep. revert g1 g2 σ w h1 σ1 w1 h2 σ2 w2.
  induction sched as [|who sched IH]; intros g1 g2 σ w h1 σ1 w1 h2 σ2 w2 Hs1 Hs2;
    [done|].
  destruct who; simpl.
  - pose proof (next_indep r g1 h1 σ σ1 w w1 Hrep Hs1) as Hn.
    destruct (next r g1 σ w) as [[[rep g1'] σ'] w'].
    destruct (next r h1 σ1 w1) as [[[rep1 h1'] σ1'] w1'].
    destruct Hn as [Hobs Hs1'].
    specialize (IH g1' g2 σ' w' h1' σ1' w1' h2 σ2 w2 Hs1' Hs2).
    destruct (interleave r r sched (g1', g2, σ', w')) as [tr st]. simpl in *.
    destruct IH as [-> ->]. by rewrite Hobs.
  - pose proof (next_indep r g2 h2 σ σ2 w w2 Hrep Hs2) as Hn.
    destruct (next r g2 σ w) as [[[rep g2'] σ'] w'].
    destruct (next r h2 σ2 w2) as [[[rep2 h2'] σ2'] w2'].
    destruct Hn as [Hobs Hs2'].
    specialize (IH g1 g2' σ' w' h1 σ1 w1 h2' σ2' w2' Hs1 Hs2').
    destruct (interleave r r sched (g1, g2', σ', w')) as [tr st]. simpl in *.
    destruct IH as [-> ->]. by rewrite Hobs.
Qed.

Lemma solo_prefix r n m g σ w k :
  (k < n)%nat → (k < m)%nat → solo r n g σ w !! k = solo r m g σ w !! k.
Proof.
  revert m g σ w k. induction n as [|n IH]; intros m g σ w k Hn Hm; [lia|].
  destruct m as [|m]; [lia|]. simpl.
  destruct (next r g σ w) as [[[rep g'] σ'] w'].
  destruct k as [|k]; [done|]. simpl. apply IH; lia.
Qed.

Lemma seen_length who r1 r2 sched st :
  length (seen who (interleave r1 r2 sched st).1) = calls who sched.
Proof.
  revert st. induction sched as [|b sched IH]; intros st; [done|]. simpl.
  destruct (step_duo r1 r2 b st) as [o st'].
  specialize (IH st'). destruct (interleave r1 r2 sched st') as [tr st'']. simpl in *.
  destruct (Bool.eqb b who); simpl; lia.
Qed.

(** A call of [next] writes to the list of its generator only: a list
    object that is already there and is not its own stays as it is; and
    its own list is an old one it held, or a new one. *)
Lemma next_frame r g σ w :
  let '(_, g', σ', _) := next r g σ w in
  (∀ l, l ∈ dom σ → examples_loc g ≠ Some l → σ' !! l = σ !! l) ∧
  dom σ ⊆ dom σ' ∧
  (∀ l, examples_loc g' = Some l →
        l ∈ dom σ' ∧ (examples_loc g = Some l ∨ l ∉ dom σ)).
Proof.
  assert (∀ l run,
    (examples_loc g = Some l ∨ (examples_loc g = None ∧ l ∉ dom σ)) →
    let '(_, g', σ', _) := settle l run σ in
    (∀ l0, l0 ∈ dom σ → examples_loc g ≠ Some l0 → σ' !! l0 = σ !! l0) ∧
    dom σ ⊆ dom σ' ∧
    (∀ l0, examples_loc g' = Some l0 →
           l0 ∈ dom σ' ∧ (examples_loc g = Some l0 ∨ l0 ∉ dom σ))) as Hsettle.
  { intros l [[o acc] w'] Hl.
    assert (∀ l0, l0 ∈ dom σ → examples_loc g ≠ Some l0 →
                  <[l:=acc]> σ !! l0 = σ !! l0) as Hother.
    { intros l0 Hin Hne. apply lookup_insert_ne. intros ->.
      destruct Hl as [Hl|[_ Hl]]; done. }
    assert (dom σ ⊆ dom (<[l:=acc]> σ)) as Hdom
      by (rewrite dom_insert_L; apply union_subseteq_r).
    assert (l ∈ dom (<[l:=acc]> σ)) as Hin
      by (rewrite dom_insert_L; by apply elem_of_union_l, elem_of_singleton).
    destruct o; simpl; split_and!; try done; intros l0 [= <-];
      (split; [done|]); destruct Hl as [Hl|[_ Hl]]; auto. }
  destruct g as [|l rest d i offset|l|]; simpl.
  - apply Hsettle. right. split; [done|]. apply is_fresh.
  - apply Hsettle. by left.
  - done.
  - done.
Qed.

Lemma step_duo_separate r1 r2 who st :
  separate st → separate (step_duo r1 r2 who st).2.
Proof.
  destruct st as [[[g1 g2] σ] w]. intros (H1 & H2 & Hne).
  destruct who; simpl.
  - pose proof (next_frame r1 g1 σ w) as Hf.
    destruct (next r1 g1 σ w) as [[[rep g1'] σ'] w']. simpl.
    destruct Hf as (Hother & Hdom & Hown). split_and!.
    + intros l Hl. by apply Hown.
    + intros l Hl. apply Hdom. by apply H2.
    + intros l1 l2 Hl1 Hl2 ->. destruct (Hown _ Hl1) as [_ [Hold|Hnew]].
      * by eapply Hne.
      * apply Hnew. by apply H2.
  - pose proof (next_frame r2 g2 σ w) as Hf.
    destruct (next r2 g2 σ w) as [[[rep g2'] σ'] w']. simpl.
    destruct Hf as (Hother & Hdom & Hown). split_and!.
    + intros l Hl. apply Hdom. by apply H1.
    + intros l Hl. by apply Hown.
    + intros l1 l2 Hl1 Hl2 ->. destruct (Hown _ Hl2) as [_ [Hold|Hnew]].
      * by eapply Hne.
      * apply Hnew. by apply H1.
Qed.

Lemma interleave_separate r1 r2 sched st :
  separate st → separate (interleave r1 r2 sched st).2.
Proof.
  revert st. induction sched as [|who sched IH]; intros st Hsep; [done|]. simpl.
  pose proof (step_duo_separate r1 r2 who st Hsep) as Hstep.
  destruct (step_duo r1 r2 who st) as [o st'].
  specialize (IH st' Hstep). by destruct (interleave r1 r2 sched st').
Qed.

(** A call of [next] on one generator leaves the frame and the list of
    the other as they are. *)
Lemma step_duo_other r1 r2 who g1 g2 σ w :
  separate (g1, g2, σ, w) →
  let '(g1', g2', σ', _) := (step_duo r1 r2 who (g1, g2, σ, w)).2 in
  if who
  then g2' = g2 ∧ ∀ l, examples_loc g2 = Some l → σ' !! l = σ !! l
  else g1' = g1 ∧ ∀ l, examples_loc g1 = Some l → σ' !! l = σ !! l.
Proof.
  intros (H1 & H2 & Hne). destruct who; simpl.
  - pose proof (next_frame r1 g1 σ w) as Hf.
    destruct (next r1 g1 σ w) as [[[rep g1'] σ'] w']. simpl.
    destruct Hf as (Hother & _ & _). split; [done|].
    intros l Hl. apply Hother; [by apply H2|]. intros Hl1. by eapply Hne.
  - pose proof (next_frame r2 g2 σ w) as Hf.
    destruct (next r2 g2 σ w) as [[[rep g2'] σ'] w']. simpl.
    destruct Hf as (Hother & _ & _). split; [done|].
    intros l Hl. apply Hother; [by apply H1|]. intros Hl2. by eapply Hne.
Qed.

(** ** The batches are one list object

    Every [yield] hands out the list [examples] itself, and the body clears
    it when it goes on.  A consumer that keeps the references finds, after
    the pass, the same list behind each of them: what was left over. *)
Lemma collect_alias r g σ w fuel :
  live g →
  (length (pending r g w).1 < fuel)%nat →
  let l := own_loc g σ in
  let left := (split_full (length (pending r g w).1) (batch_size r) (pending r g w).1).2 in
  ∃ σ', collect fuel r g σ w
          = (replicate (length (consume fuel r g σ w).1) l, σ', (consume fuel r g σ w).2) ∧
        σ' !! l = Some left.
Proof.
  revert g σ w. induction fuel as [|fuel IH]; intros g σ w Hlive Hfuel; [lia|].
  pose proof (next_spec r g σ w Hlive) as Hnext. simpl in Hnext.
  destruct (pending r g w) as [es t] eqn:Hp. simpl in *.
  case_fills (batch_size r) es Hf.
  - set (l := own_loc g σ) in *.
    destruct Hnext as (g' & w' & -> & Hlive' & Hloc & Hp').
    specialize (IH g' (<[l:=take (Z.to_nat (batch_size r)) es]> σ) w' Hlive').
    rewrite Hp' in IH. simpl in IH. rewrite length_drop in IH.
    destruct IH as (σ' & Hcol & Hleft); [lia|].
    unfold own_loc in Hcol, Hleft. rewrite Hloc in Hcol, Hleft. simpl in Hcol, Hleft.
    rewrite Hcol.
    destruct (consume fuel r g' _ w') as [bs e]. simpl.
    exists σ'. split; [done|]. rewrite Hleft. f_equal.
    destruct (length es) as [|n] eqn:Hlen; [lia|]. simpl.
    rewrite fills_true by lia.
    rewrite (split_full_fuel _ _ n) by (rewrite ?length_drop; lia).
    by destruct (split_full n (batch_size r) (drop _ es)).
  - assert (split_full (length es) (batch_size r) es = ([], es)) as ->.
    { destruct (length es) eqn:Hlen; [done|]. simpl.
      by rewrite fills_false by lia. }
    destruct Hnext as (w' & ->). simpl.
    destruct t as [e|]; [eexists; split; [done|apply lookup_insert_eq]|].
    destruct (0 <? Z.of_nat (length es)) eqn:Hpos;
      [|eexists; split; [done|apply lookup_insert_eq]].
    destruct fuel as [|fuel]; [lia|]. simpl.
    eexists; split; [done|apply lookup_insert_eq].
Qed.

(** A pass over archives that fit ends normally, and its batches, put
    end to end, are the examples of the archives in order. *)
Lemma consume_concat r σ w ds fuel :
  (load_all (r_variant r) (filenames r) w).1 = Ok ds →
  Forall (fits (r_variant r)) ds →
  (total_examples ds < fuel)%nat →
  ∃ bs, consume fuel r (call_reader r) σ w = (bs, Some Completed) ∧
        concat bs = concat (spec_examples (r_variant r) <$> ds).
Proof.
  intros Hload Hwf Hfuel. rewrite (consume_fits _ _ _ ds) by done.
  apply batching_concat.
Qed.

(** The example built from entry [i] of archive [j], where it stands in
    the pass. *)
Lemma consume_lookup r σ w ds fuel j d i :
  (load_all (r_variant r) (filenames r) w).1 = Ok ds →
  Forall (fits (r_variant r)) ds →
  (total_examples ds < fuel)%nat →
  ds !! j = Some d → (i < length (lengths d))%nat →
  ∃ bs, consume fuel r (call_reader r) σ w = (bs, Some Completed) ∧
        concat bs !! (examples_before ds j + i)%nat
          = Some (spec_example (r_variant r) d i).
Proof.
  intros Hload Hwf Hfuel Hj Hi.
  destruct (consume_concat r σ w ds fuel Hload Hwf Hfuel) as (bs & Hrun & Hcat).
  exists bs. split; [done|]. rewrite Hcat. by apply all_examples_lookup.
Qed.

Lemma load_all_labelled v name files w ds j d :
  v = SeqLabel name ∨ v = Scalar name →
  (load_all v files w).1 = Ok ds → ds !! j = Some d →
  ∃ filename data, files !! j = Some filename ∧ fs !! filename = Some data ∧
    data !! "token_ids" = Some (token_ids d) ∧
    data !! name = Some (labels d) ∧
    data !! "lengths" = Some (lengths d).
Proof.
  intros Hv Hload Hj.
  destruct (load_all v files w) as [res w'] eqn:Hall. simpl in Hload. subst res.
  destruct (load_all_lookup _ _ _ _ _ _ _ Hall Hj) as (f & w1 & w2 & Hf & Hd).
  destruct (load_labelled _ _ _ _ _ _ Hv Hd) as (data & Hdata).
  by exists f, data.
Qed.

End Readers.

(** * Passes cut short by an exception *)

Lemma split_full_chunks B n es :
  Forall (λ b, Z.of_nat (length b) = B ∧ 1 <= B) (split_full n B es).1.
Proof.
  revert es. induction n as [|n IH]; intros es; simpl; [constructor|].
  destruct (fills B es) eqn:Hf; [apply fills_iff in Hf|constructor].
  specialize (IH (drop (Z.to_nat B) es)).
  destruct (split_full n B (drop (Z.to_nat B) es)) as [bs r]. simpl in *.
  constructor; [|done]. rewrite length_take. lia.
Qed.

(** When the examples of a pass end with an exception, the pass yields the
    full batches of the examples built, in order, and then raises; what
    was gathered since the last full batch is never yielded. *)
Lemma consume_stream_aborts {W : Type}
    (apply_bert_mask : W → list Z → (list Z * list Z) * W)
    (fs : gmap string (gmap string (list Z))) (r : reader)
    (σ : gmap positive (list example)) (w : W)
    (es : list example) (e : exn) (fuel : nat) :
  files_stream apply_bert_mask fs (r_variant r) (filenames r) w = (es, Some e) →
  (length es < fuel)%nat →
  ∃ bs left,
    consume apply_bert_mask fs fuel r (call_reader r) σ w = (bs, Some (Aborted e)) ∧
    concat bs ++ left = es ∧
    Forall (λ b, Z.of_nat (length b) = batch_size r) bs ∧
    (1 <= batch_size r → Z.of_nat (length left) < batch_size r).
Proof.
  intros Hs Hfuel.
  rewrite consume_batching; [|done|simpl; by rewrite Hs].
  simpl. rewrite Hs. unfold batching. simpl.
  pose proof (split_full_concat (batch_size r) (length es) es) as Hcat.
  pose proof (split_full_chunks (batch_size r) (length es) es) as Hchunks.
  pose proof (split_full_shape (batch_size r) (length es) es) as Hshape.
  destruct (split_full (length es) (batch_size r) es) as [bs left]. simpl in *.
  exists bs, left. split_and!; [done|done| |].
  - eapply Forall_impl; [exact Hchunks|]. by intros b [Hb _].
  - intros HB. destruct (Hshape HB (le_n _)) as (_ & _ & Hleft).
    pose proof (Z.mod_pos_bound (Z.of_nat (length es)) (batch_size r)). lia.
Qed.










(** * The claims *)

(** Well-formedness of sample archives, by computation. *)
Ltac sample_well_formed := repeat first [lia | constructor].

(** ** Batching *)

(** C2.  For well-formed archives holding [N] examples in total and a
    batch size [B >= 1], a pass ends normally after [ceil(N / B)] batches;
    the first [N // B] hold exactly [B] examples each; when [N % B] is not
    zero one more batch of [N % B] examples follows, and none when it is
    zero.  Each batch is read when it is yielded. *)
Theorem exact_batching {W : Type} (apply_bert_mask : W → list Z → (list Z * list Z) * W)
    (fs : gmap string (gmap string (list Z))) (r : reader)
    (σ : gmap positive (list example)) (w : W) (ds : list loaded) (fuel : nat) :
  (load_all apply_bert_mask fs (r_variant r) (filenames r) w).1 = Ok ds →
  Forall (well_formed (r_variant r)) ds →
  1 <= batch_size r →
  (total_examples ds < fuel)%nat →
  let N := Z.of_nat (total_examples ds) in
  let B := batch_size r in
  ∃ bs,
    consume apply_bert_mask fs fuel r (call_reader r) σ w = (bs, Some Completed) ∧
    Z.of_nat (length bs) = ceil_div N B ∧
    (∀ (k : nat) b, Z.of_nat k < N / B → bs !! k = Some b → Z.of_nat (length b) = B) ∧
    (N mod B ≠ 0 →
     ∃ b, bs !! Z.to_nat (N / B) = Some b ∧ Z.of_nat (length b) = N mod B ∧
          Z.of_nat (length bs) = N / B + 1) ∧
    (N mod B = 0 → Z.of_nat (length bs) = N / B).
Proof.
  intros Hload Hwf HB Hfuel N B.
  rewrite (consume_fits _ _ _ _ _ ds) by auto using Forall_well_formed_fits.
  pose proof (batching_exact B (concat (spec_examples (r_variant r) <$> ds)) HB) as Hb.
  simpl in Hb. rewrite all_examples_length in Hb.
  destruct Hb as (bs & Hrun & _ & Hrest). by exists bs.
Qed.

Lemma exact_batching_witness :
  ∃ bs,
    consume Samples.mask_none Samples.disk 10
      (sequence_sample_reader ["seq_a"; "seq_b"] 2 "labels")
      (call_reader (sequence_sample_reader ["seq_a"; "seq_b"] 2 "labels")) ∅ tt
      = (bs, Some Completed) ∧
    Z.of_nat (length bs) = ceil_div 5 2 ∧
    (∀ (k : nat) b, Z.of_nat k < 5 / 2 → bs !! k = Some b → Z.of_nat (length b) = 2) ∧
    (5 mod 2 ≠ 0 →
     ∃ b, bs !! Z.to_nat (5 / 2) = Some b ∧ Z.of_nat (length b) = 5 mod 2 ∧
          Z.of_nat (length bs) = 5 / 2 + 1) ∧
    (5 mod 2 = 0 → Z.of_nat (length bs) = 5 / 2).
Proof.
  apply (exact_batching Samples.mask_none Samples.disk
           (sequence_sample_reader ["seq_a"; "seq_b"] 2 "labels") ∅ tt
           [Samples.seq_a; Samples.seq_b] 10).
  - vm_compute. reflexivity.
  - sample_well_formed.
  - simpl. lia.
  - simpl. lia.
Defined.

(** C9.  For well-formed archives, the batches of a pass put end to end
    are the examples of the archives, in the order of the files and then of
    the entries of [lengths]: none is lost, doubled or moved.  The
    accumulator goes on across files, so a batch can hold examples of two
    archives: with two examples in the first archive and a batch size of
    three, the first batch ends with the first example of the second. *)
Theorem batches_concat :
  (∀ (W : Type) (apply_bert_mask : W → list Z → (list Z * list Z) * W)
     (fs : gmap string (gmap string (list Z))) (r : reader)
     (σ : gmap positive (list example)) (w : W) (ds : list loaded) (fuel : nat),
     (load_all apply_bert_mask fs (r_variant r) (filenames r) w).1 = Ok ds →
     Forall (well_formed (r_variant r)) ds →
     (total_examples ds < fuel)%nat →
     ∃ bs,
       consume apply_bert_mask fs fuel r (call_reader r) σ w = (bs, Some Completed) ∧
       concat bs = concat (spec_examples (r_variant r) <$> ds)) ∧
  (∃ b,
     (consume Samples.mask_none Samples.disk 10
        (sequence_sample_reader ["seq_a"; "seq_b"] 3 "labels") NotStarted ∅ tt).1 !! 0%nat
       = Some b ∧
     b !! 1%nat = Some (spec_example (SeqLabel "labels") Samples.seq_a 1) ∧
     b !! 2%nat = Some (spec_example (SeqLabel "labels") Samples.seq_b 0)).
Proof.
  split.
  - intros. apply consume_concat; auto using Forall_well_formed_fits.
  - eexists. split_and!; vm_compute; reflexivity.
Qed.

Lemma batches_concat_witness :
  ∃ bs,
    consume Samples.mask_none Samples.disk 10
      (pretrain_sample_reader ["seq_a"; "seq_b"] 2)
      (call_reader (pretrain_sample_reader ["seq_a"; "seq_b"] 2)) ∅ tt
      = (bs, Some Completed) ∧
    concat bs
      = concat (spec_examples Pretrain <$>
                  [Samples.masked_a; Samples.masked_b]).
Proof.
  apply (proj1 batches_concat unit Samples.mask_none Samples.disk
           (pretrain_sample_reader ["seq_a"; "seq_b"] 2) ∅ tt
           [Samples.masked_a; Samples.masked_b] 10%nat).
  - vm_compute. reflexivity.
  - sample_well_formed.
  - simpl. lia.
Defined.

(** C10, as the code has it.  With [batch_size <= 0] no batch gets full: a
    pass over well-formed archives that hold [N >= 1] examples yields one
    batch, at its end, with all of them.  When the archives hold no example
    ([N = 0], also for a list of archives that is not empty) nothing is
    yielded. *)
Theorem nonpositive_batch_size {W : Type}
    (apply_bert_mask : W → list Z → (list Z * list Z) * W)
    (fs : gmap string (gmap string (list Z))) (r : reader)
    (σ : gmap positive (list example)) (w : W) (ds : list loaded) (fuel : nat) :
  (load_all apply_bert_mask fs (r_variant r) (filenames r) w).1 = Ok ds →
  Forall (well_formed (r_variant r)) ds →
  batch_size r <= 0 →
  (total_examples ds < fuel)%nat →
  consume apply_bert_mask fs fuel r (call_reader r) σ w
    = (if 0 <? Z.of_nat (total_examples ds)
       then [concat (spec_examples (r_variant r) <$> ds)]
       else [],
       Some Completed).
Proof.
  intros Hload Hwf HB Hfuel.
  rewrite (consume_fits _ _ _ _ _ ds) by auto using Forall_well_formed_fits.
  rewrite batching_never by done. by rewrite all_examples_length.
Qed.

Lemma nonpositive_batch_size_witness :
  consume Samples.mask_none Samples.disk 10
    (normal_sample_reader ["scalar_a"] 0 "labels")
    (call_reader (normal_sample_reader ["scalar_a"] 0 "labels")) ∅ tt
  = (if 0 <? Z.of_nat (total_examples [Samples.scalar_a])
     then [concat (spec_examples (Scalar "labels") <$> [Samples.scalar_a])]
     else [],
     Some Completed).
Proof.
  apply (nonpositive_batch_size Samples.mask_none Samples.disk
           (normal_sample_reader ["scalar_a"] 0 "labels") ∅ tt [Samples.scalar_a] 10).
  - vm_compute. reflexivity.
  - sample_well_formed.
  - simpl. lia.
  - simpl. lia.
Defined.

(** C10 as stated fails on an archive without examples: the list of
    archives is not empty and the archive is well formed, yet the pass
    yields no batch at all, where the claim has one batch. *)
Lemma empty_archive_no_batch :
  ["empty"] ≠ ([] : list string) ∧
  (load_all Samples.mask_none Samples.disk (Scalar "labels") ["empty"] tt).1
    = Ok [Samples.empty] ∧
  well_formed (Scalar "labels") Samples.empty ∧
  consume Samples.mask_none Samples.disk 10
    (normal_sample_reader ["empty"] 0 "labels") NotStarted ∅ tt
  = ([], Some Completed).
Proof.
  split_and!; [done|vm_compute; reflexivity|sample_well_formed|vm_compute; reflexivity].
Qed.

(** ** The examples *)

(** C6.  In every variant, the example built from an entry [L] of
    [lengths] of a well-formed archive has the positions [0, 1, ..., L-1]
    as a column of shape [(L, 1)], and a token column of shape [(L, 1)]
    with [L] tokens. *)
Theorem positions_and_shapes {W : Type}
    (apply_bert_mask : W → list Z → (list Z * list Z) * W)
    (fs : gmap string (gmap string (list Z))) (r : reader)
    (σ : gmap positive (list example)) (w : W) (ds : list loaded) (fuel : nat)
    (j : nat) (d : loaded) (i : nat) (L : Z) :
  (load_all apply_bert_mask fs (r_variant r) (filenames r) w).1 = Ok ds →
  Forall (well_formed (r_variant r)) ds →
  (total_examples ds < fuel)%nat →
  ds !! j = Some d → lengths d !! i = Some L →
  ∃ bs e,
    consume apply_bert_mask fs fuel r (call_reader r) σ w = (bs, Some Completed) ∧
    concat bs !! (examples_before ds j + i)%nat = Some e ∧
    pos e = np.NDArray (L, 1) (np.arange L) ∧
    Z.of_nat (length (np.data (pos e))) = L ∧
    (∀ k : nat, Z.of_nat k < L → np.data (pos e) !! k = Some (Z.of_nat k)) ∧
    np.shape (tokens e) = (L, 1) ∧
    Z.of_nat (length (np.data (tokens e))) = L.
Proof.
  intros Hload Hwf Hfuel Hj Hi.
  pose proof (lookup_lt_Some _ _ _ Hi) as Hlt.
  pose proof (Forall_well_formed_fits _ _ Hwf) as Hfits.
  destruct (consume_lookup apply_bert_mask fs r σ w ds fuel j d i Hload Hfits Hfuel Hj Hlt)
    as (bs & Hrun & Hex).
  assert (well_formed (r_variant r) d) as Hd by (by eapply (Forall_lookup_1 _ _ _ _ Hwf)).
  assert (0 <= L) as HL.
  { destruct Hd as (Hpos & _). by eapply (Forall_lookup_1 _ _ _ _ Hpos). }
  exists bs, (spec_example (r_variant r) d i). split_and!; try done.
  - unfold spec_example. by rewrite Hi.
  - unfold spec_example. rewrite Hi. simpl. rewrite arange_length. lia.
  - intros k Hk. unfold spec_example. rewrite Hi. simpl. by apply arange_lookup.
  - unfold spec_example. by rewrite Hi.
  - destruct (spec_example_full_rows _ _ _ (well_formed_fits _ _ Hd) Hlt) as (rows & _ & Hshape & Hlen & _).
    rewrite Hlen. unfold spec_example in Hshape. rewrite Hi in Hshape. simpl in Hshape.
    by injection Hshape.
Qed.

Lemma positions_and_shapes_witness :
  ∃ bs e,
    consume Samples.mask_none Samples.disk 10
      (pretrain_sample_reader ["seq_a"; "seq_b"] 2)
      (call_reader (pretrain_sample_reader ["seq_a"; "seq_b"] 2)) ∅ tt
      = (bs, Some Completed) ∧
    concat bs !! (examples_before
                    [Samples.masked_a; Samples.masked_b] 0 + 1)%nat = Some e ∧
    pos e = np.NDArray (3, 1) (np.arange 3) ∧
    Z.of_nat (length (np.data (pos e))) = 3 ∧
    (∀ k : nat, Z.of_nat k < 3 → np.data (pos e) !! k = Some (Z.of_nat k)) ∧
    np.shape (tokens e) = (3, 1) ∧
    Z.of_nat (length (np.data (tokens e))) = 3.
Proof.
  apply (positions_and_shapes Samples.mask_none Samples.disk
           (pretrain_sample_reader ["seq_a"; "seq_b"] 2) ∅ tt
           [Samples.masked_a; Samples.masked_b] 10 0
           Samples.masked_a 1 3).
  - vm_compute. reflexivity.
  - sample_well_formed.
  - simpl. lia.
  - reflexivity.
  - reflexivity.
Defined.

(** C4.  In the scalar-label variant the label of the example built from
    entry [i] of a well-formed archive is entry [i] of the label field
    named by [label_name], as an array of shape [(1, 1)]; the lengths of
    the examples before play no part.  With [lengths = [3, 1, 2]] and
    [labels = [7, 8, 9]], example 1 has label 8. *)
Theorem scalar_label_by_index :
  (∀ (W : Type) (apply_bert_mask : W → list Z → (list Z * list Z) * W)
     (fs : gmap string (gmap string (list Z)))
     (files : list string) (B : Z) (label_name : string)
     (σ : gmap positive (list example)) (w : W) (ds : list loaded) (fuel : nat)
     (j : nat) (d : loaded) (i : nat) (x : Z),
     let r := normal_sample_reader files B label_name in
     (load_all apply_bert_mask fs (r_variant r) files w).1 = Ok ds →
     Forall (well_formed (r_variant r)) ds →
     (total_examples ds < fuel)%nat →
     ds !! j = Some d → labels d !! i = Some x →
     ∃ bs e filename data,
       consume apply_bert_mask fs fuel r (call_reader r) σ w = (bs, Some Completed) ∧
       concat bs !! (examples_before ds j + i)%nat = Some e ∧
       label e = np.NDArray (1, 1) [x] ∧
       files !! j = Some filename ∧ fs !! filename = Some data ∧
       data !! label_name = Some (labels d)) ∧
  (∃ bs e,
     Samples.disk !! "scalar_a" = Some (Samples.archive [1; 2; 3; 4; 5; 6] [7; 8; 9] [3; 1; 2]) ∧
     consume Samples.mask_none Samples.disk 10
       (normal_sample_reader ["scalar_a"] 2 "labels") NotStarted ∅ tt
       = (bs, Some Completed) ∧
     concat bs !! 1%nat = Some e ∧
     label e = np.NDArray (1, 1) [8]).
Proof.
  split.
  - intros W mask fs files B name σ w ds fuel j d i x r Hload Hwf Hfuel Hj Hx.
    assert (well_formed (r_variant r) d) as Hd by (by eapply (Forall_lookup_1 _ _ _ _ Hwf)).
    assert (i < length (lengths d))%nat as Hlt.
    { destruct Hd as (_ & _ & Hlab). simpl in Hlab. rewrite <- Hlab.
      by eapply lookup_lt_Some. }
    pose proof (Forall_well_formed_fits _ _ Hwf) as Hfits.
    destruct (consume_lookup mask fs r σ w ds fuel j d i Hload Hfits Hfuel Hj Hlt)
      as (bs & Hrun & Hex).
    destruct (load_all_labelled mask fs (Scalar name) name files w ds j d)
      as (f & data & Hf & Hdata & _ & Hlabels & _); [by right|done|done|].
    exists bs, (spec_example (r_variant r) d i), f, data. split_and!; try done.
    unfold spec_example. simpl. by rewrite (slice_one _ _ _ Hx).
  - do 2 eexists. split_and!; vm_compute; reflexivity.
Qed.

Lemma scalar_label_by_index_witness :
  ∃ bs e filename data,
    consume Samples.mask_none Samples.disk 10
      (normal_sample_reader ["scalar_a"] 2 "labels")
      (call_reader (normal_sample_reader ["scalar_a"] 2 "labels")) ∅ tt
      = (bs, Some Completed) ∧
    concat bs !! (examples_before [Samples.scalar_a] 0 + 2)%nat = Some e ∧
    label e = np.NDArray (1, 1) [9] ∧
    ["scalar_a"] !! 0%nat = Some filename ∧ Samples.disk !! filename = Some data ∧
    data !! "labels" = Some (labels Samples.scalar_a).
Proof.
  apply (proj1 scalar_label_by_index unit Samples.mask_none Samples.disk
           ["scalar_a"] 2 "labels" ∅ tt [Samples.scalar_a] 10%nat 0%nat
           Samples.scalar_a 2%nat 9).
  - vm_compute. reflexivity.
  - sample_well_formed.
  - simpl. lia.
  - reflexivity.
  - reflexivity.
Defined.

(** C5.  In the sequence-labeling variant the example built from entry [i]
    of a well-formed archive has the tokens
    [token_ids[offset : offset + lengths[i]]] and the labels
    [labels[offset : offset + lengths[i]]] of the field named by
    [label_name], with the same offset for both, the sum of the lengths
    before [i].  With [token_ids = [1, 2, 3, 4, 5]] and [lengths = [2, 3]],
    example 0 has the tokens [[1, 2]] and the labels [labels[0:2]]. *)
Theorem sequence_label_slice :
  (∀ (W : Type) (apply_bert_mask : W → list Z → (list Z * list Z) * W)
     (fs : gmap string (gmap string (list Z)))
     (files : list string) (B : Z) (label_name : string)
     (σ : gmap positive (list example)) (w : W) (ds : list loaded) (fuel : nat)
     (j : nat) (d : loaded) (i : nat) (L : Z),
     let r := sequence_sample_reader files B label_name in
     (load_all apply_bert_mask fs (r_variant r) files w).1 = Ok ds →
     Forall (well_formed (r_variant r)) ds →
     (total_examples ds < fuel)%nat →
     ds !! j = Some d → lengths d !! i = Some L →
     let offset := sum (take i (lengths d)) in
     ∃ bs e filename data,
       consume apply_bert_mask fs fuel r (call_reader r) σ w = (bs, Some Completed) ∧
       concat bs !! (examples_before ds j + i)%nat = Some e ∧
       tokens e = np.NDArray (L, 1) (np.slice (token_ids d) offset (offset + L)) ∧
       label e = np.NDArray (L, 1) (np.slice (labels d) offset (offset + L)) ∧
       files !! j = Some filename ∧ fs !! filename = Some data ∧
       data !! "token_ids" = Some (token_ids d) ∧
       data !! label_name = Some (labels d) ∧
       data !! "lengths" = Some (lengths d)) ∧
  (∃ bs e,
     Samples.disk !! "seq_a"
       = Some (Samples.archive [1; 2; 3; 4; 5] [11; 12; 13; 14; 15] [2; 3]) ∧
     consume Samples.mask_none Samples.disk 10
       (sequence_sample_reader ["seq_a"] 2 "labels") NotStarted ∅ tt
       = (bs, Some Completed) ∧
     concat bs !! 0%nat = Some e ∧
     tokens e = np.NDArray (2, 1) [1; 2] ∧
     label e = np.NDArray (2, 1) (np.slice [11; 12; 13; 14; 15] 0 2)).
Proof.
  split.
  - intros W mask fs files B name σ w ds fuel j d i L r Hload Hwf Hfuel Hj Hi offset.
    pose proof (lookup_lt_Some _ _ _ Hi) as Hlt.
    pose proof (Forall_well_formed_fits _ _ Hwf) as Hfits.
    destruct (consume_lookup mask fs r σ w ds fuel j d i Hload Hfits Hfuel Hj Hlt)
      as (bs & Hrun & Hex).
    destruct (load_all_labelled mask fs (SeqLabel name) name files w ds j d)
      as (f & data & Hf & Hdata & Htok & Hlabels & Hlens); [by left|done|done|].
    exists bs, (spec_example (r_variant r) d i), f, data. split_and!; try done.
    + unfold spec_example. by rewrite Hi.
    + unfold spec_example. by rewrite Hi.
  - do 2 eexists. split_and!; vm_compute; reflexivity.
Qed.

Lemma sequence_label_slice_witness :
  ∃ bs e filename data,
    consume Samples.mask_none Samples.disk 10
      (sequence_sample_reader ["seq_b"; "seq_a"] 2 "labels")
      (call_reader (sequence_sample_reader ["seq_b"; "seq_a"] 2 "labels")) ∅ tt
      = (bs, Some Completed) ∧
    concat bs !! (examples_before [Samples.seq_b; Samples.seq_a] 1 + 1)%nat = Some e ∧
    tokens e = np.NDArray (3, 1) (np.slice (token_ids Samples.seq_a) (sum [2]) (sum [2] + 3)) ∧
    label e = np.NDArray (3, 1) (np.slice (labels Samples.seq_a) (sum [2]) (sum [2] + 3)) ∧
    ["seq_b"; "seq_a"] !! 1%nat = Some filename ∧ Samples.disk !! filename = Some data ∧
    data !! "token_ids" = Some (token_ids Samples.seq_a) ∧
    data !! "labels" = Some (labels Samples.seq_a) ∧
    data !! "lengths" = Some (lengths Samples.seq_a).
Proof.
  apply (proj1 sequence_label_slice unit Samples.mask_none Samples.disk
           ["seq_b"; "seq_a"] 2 "labels" ∅ tt [Samples.seq_b; Samples.seq_a] 10%nat
           1%nat Samples.seq_a 1%nat 3).
  - vm_compute. reflexivity.
  - sample_well_formed.
  - simpl. lia.
  - reflexivity.
  - reflexivity.
Defined.

(** ** Archives whose lengths do not add up to the token buffer *)




(** ** The dispatch on the task *)

(** C3.  [get_sample_generator] gives the pretraining reader for the task
    ['pretrain'], the sequence-labeling reader for ['seq_classification']
    and the scalar-label reader for ['classification'] and ['regression'],
    the two latter with the label name of the configuration (['labels'] by
    default); for any other task it raises the [NameError] whose message
    holds the task.  This happens when the reader is made: the function is
    given neither the disk nor the heap, and a reader opens its first file
    only when [next] is first called on its generator. *)
Theorem dispatch_by_task (files : list string) (B : Z)
    (model_config : gmap string string) (task : string) :
  model_config !! "task" = Some task →
  (task = "pretrain" →
   get_sample_generator files B model_config = Ok (pretrain_sample_reader files B)) ∧
  (task = "seq_classification" →
   get_sample_generator files B model_config
     = Ok (sequence_sample_reader files B (config_get model_config "label_name" "labels"))) ∧
  (task = "classification" ∨ task = "regression" →
   get_sample_generator files B model_config
     = Ok (normal_sample_reader files B (config_get model_config "label_name" "labels"))) ∧
  (task ∉ ["pretrain"; "seq_classification"; "classification"; "regression"] →
   get_sample_generator files B model_config
     = Raise (NameError ("Task " +:+ task +:+ " is unsupport."))).
Proof.
  intros Htask. unfold get_sample_generator. rewrite Htask. split_and!.
  - by intros ->.
  - by intros ->.
  - by intros [-> | ->].
  - intros Hnot.
    rewrite !not_elem_of_cons in Hnot. destruct Hnot as (H1 & H2 & H3 & H4 & _).
    destruct (String.eqb_spec task "pretrain") as [->|_]; [done|].
    destruct (String.eqb_spec task "seq_classification") as [->|_]; [done|].
    rewrite bool_decide_eq_false_2; [done|].
    rewrite !not_elem_of_cons. split_and!; [done|done|]. apply not_elem_of_nil.
Qed.

Lemma dispatch_by_task_witness :
  ("bogus" = "pretrain" →
   get_sample_generator ["seq_a"] 2 {[ "task" := "bogus" ]}
     = Ok (pretrain_sample_reader ["seq_a"] 2)) ∧
  ("bogus" = "seq_classification" →
   get_sample_generator ["seq_a"] 2 {[ "task" := "bogus" ]}
     = Ok (sequence_sample_reader ["seq_a"] 2
             (config_get {[ "task" := "bogus" ]} "label_name" "labels"))) ∧
  ("bogus" = "classification" ∨ "bogus" = "regression" →
   get_sample_generator ["seq_a"] 2 {[ "task" := "bogus" ]}
     = Ok (normal_sample_reader ["seq_a"] 2
             (config_get {[ "task" := "bogus" ]} "label_name" "labels"))) ∧
  ("bogus" ∉ ["pretrain"; "seq_classification"; "classification"; "regression"] →
   get_sample_generator ["seq_a"] 2 {[ "task" := "bogus" ]}
     = Raise (NameError ("Task " +:+ "bogus" +:+ " is unsupport."))).
Proof.
  apply (dispatch_by_task ["seq_a"] 2 {[ "task" := "bogus" ]} "bogus").
  reflexivity.
Defined.

(** ** The ad-hoc batch builder *)

Lemma foldl_batch_step (gen_token_ids : string → list Z) (examples : list string)
    (token_ids pos lods : list Z) :
  foldl (batch_step gen_token_ids)
        (token_ids, pos, lods ++ [Z.of_nat (length token_ids)]) examples
  = (token_ids ++ concat (gen_token_ids <$> examples),
     pos ++ concat ((λ e, np.arange (Z.of_nat (length (gen_token_ids e)))) <$> examples),
     lods ++ prefix_sums (Z.of_nat (length token_ids))
               ((λ e, Z.of_nat (length (gen_token_ids e))) <$> examples)).
Proof.
  revert token_ids pos lods.
  induction examples as [|e examples IH]; intros token_ids pos lods; simpl.
  - by rewrite !app_nil_r.
  - rewrite IH, <- !app_assoc, length_app, Nat2Z.inj_add. done.
Qed.

Lemma prefix_sums_lookup (acc : Z) (lens : list Z) (k : nat) :
  (k ≤ length lens)%nat → prefix_sums acc lens !! k = Some (acc + sum (take k lens)).
Proof.
  revert acc k. induction lens as [|len lens IH]; intros acc k Hk; simpl in *.
  - assert (k = 0%nat) as -> by lia. simpl. f_equal. unfold sum. simpl. lia.
  - destruct k as [|k]; simpl.
    + f_equal. unfold sum. simpl. lia.
    + rewrite IH by lia. f_equal. unfold sum. simpl. lia.
Qed.

Lemma prefix_sums_length (acc : Z) (lens : list Z) :
  length (prefix_sums acc lens) = S (length lens).
Proof. revert acc. induction lens as [|len lens IH]; intros acc; simpl; [done|]. by rewrite IH. Qed.

Lemma concat_length_sum {A} (f : A → list Z) (xs : list A) :
  Z.of_nat (length (concat (f <$> xs))) = sum ((λ x, Z.of_nat (length (f x))) <$> xs).
Proof.
  induction xs as [|x xs IH]; [done|]. rewrite !fmap_cons. simpl.
  rewrite length_app, Nat2Z.inj_add, IH. done.
Qed.

Lemma prefix_sums_non_descending (acc : Z) (lens : list Z) :
  Forall (λ len, 0 <= len) lens → non_descending (prefix_sums acc lens) = true.
Proof.
  intros Hpos. revert acc. induction Hpos as [|len lens Hlen _ IH]; intros acc; [done|].
  specialize (IH (acc + len)). simpl in *.
  destruct lens; simpl in *; rewrite ?IH, ?andb_true_r; apply Z.leb_le; lia.
Qed.

Lemma prefix_sums_last (acc : Z) (lens : list Z) :
  last (prefix_sums acc lens) = Some (acc + sum lens).
Proof.
  rewrite last_lookup, prefix_sums_length. simpl.
  rewrite prefix_sums_lookup by done. by rewrite take_ge.
Qed.

(** The offset table of a list of sequences that is not empty passes
    Paddle's check against a tensor with one row per token. *)
Lemma check_lod_prefix_sums (lens : list Z) :
  lens ≠ [] → Forall (λ len, 0 <= len) lens →
  CheckLoD [prefix_sums 0 lens] (sum lens) = true.
Proof.
  intros Hne Hpos. unfold CheckLoD, check_level. simpl.
  rewrite prefix_sums_length, (prefix_sums_non_descending 0 lens Hpos), prefix_sums_last.
  destruct lens as [|len lens]; [done|]. simpl.
  rewrite bool_decide_eq_true_2 by done. simpl.
  by destruct (0 <? len + sum lens).
Qed.

Lemma gen_batch_data_run (examples : list string) (gen_token_ids : string → list Z) :
  examples ≠ [] →
  let lens := (λ e, Z.of_nat (length (gen_token_ids e))) <$> examples in
  gen_batch_data examples gen_token_ids
    = Ok {[ "protein_token" :=
              MkLoDTensor
                (Some (np.NDArray (sum lens, 1) (concat (gen_token_ids <$> examples))))
                [prefix_sums 0 lens];
            "protein_pos" :=
              MkLoDTensor
                (Some (np.NDArray (sum lens, 1)
                         (concat ((λ e, np.arange (Z.of_nat (length (gen_token_ids e))))
                                    <$> examples))))
                [prefix_sums 0 lens] ]}.
Proof.
  intros Hne lens. unfold gen_batch_data.
  pose proof (foldl_batch_step gen_token_ids examples [] [] []) as Hfold.
  change ([] ++ [Z.of_nat (length (@nil Z))]) with [0] in Hfold.
  rewrite Hfold. clear Hfold. simpl.
  assert (CheckLoD [prefix_sums 0 lens] (sum lens) = true) as Hcheck.
  { apply check_lod_prefix_sums.
    - subst lens. by destruct examples.
    - subst lens. apply Forall_fmap, Forall_forall. intros e _. simpl. lia. }
  assert (Z.of_nat (length (concat ((λ e, np.arange (Z.of_nat (length (gen_token_ids e))))
                                      <$> examples))) = sum lens) as Hpos.
  { rewrite concat_length_sum. subst lens. f_equal.
    apply list_fmap_ext. intros _ e _. rewrite arange_length. lia. }
  unfold np.reshape. simpl. rewrite !Z.mod_1_r, !Z.div_1_r. simpl.
  unfold set_lod, set, tensor_height. simpl.
  change (Z.of_nat 0) with 0.
  rewrite concat_length_sum, Hpos. fold lens. rewrite Hcheck. done.
Qed.

(** C8, as the code has it.  For a list of sequences that is not empty,
    [gen_batch_data] puts the token ids of all sequences into one flat
    column and the positions [0..len-1] of each into another; the offset
    table is [[0, len_0, len_0 + len_1, ...]], the cumulative sums of the
    token counts, and both [protein_token] and [protein_pos] carry it.  For
    [['AC', 'G']] and a tokenizer that gives one id per character the
    table is [[0, 2, 3]] and the positions are [[0, 1, 0]].  For the empty
    list nothing is built: the table is [[0]], [set_lod] rejects it and
    [gen_batch_data] raises [ValueError]. *)
Theorem gen_batch_data_lods :
  (∀ (examples : list string) (gen_token_ids : string → list Z),
     examples ≠ [] →
     let lens := (λ e, Z.of_nat (length (gen_token_ids e))) <$> examples in
     let lods := prefix_sums 0 lens in
     ∃ batch,
       gen_batch_data examples gen_token_ids = Ok batch ∧
       batch !! "protein_token"
         = Some (MkLoDTensor
                   (Some (np.NDArray (sum lens, 1) (concat (gen_token_ids <$> examples))))
                   [lods]) ∧
       batch !! "protein_pos"
         = Some (MkLoDTensor
                   (Some (np.NDArray (sum lens, 1)
                            (concat ((λ e, np.arange (Z.of_nat (length (gen_token_ids e))))
                                       <$> examples))))
                   [lods]) ∧
       length lods = S (length examples) ∧
       (∀ k, (k ≤ length examples)%nat → lods !! k = Some (sum (take k lens)))) ∧
  (∀ (gen_token_ids : string → list Z),
     (∀ s, length (gen_token_ids s) = String.length s) →
     ∃ batch tokens,
       gen_batch_data ["AC"; "G"] gen_token_ids = Ok batch ∧
       batch !! "protein_token" = Some (MkLoDTensor (Some tokens) [[0; 2; 3]]) ∧
       batch !! "protein_pos"
         = Some (MkLoDTensor (Some (np.NDArray (3, 1) [0; 1; 0])) [[0; 2; 3]])) ∧
  (∀ (gen_token_ids : string → list Z),
     gen_batch_data [] gen_token_ids = Raise ValueError).
Proof.
  split_and!; [| |reflexivity].
  - intros examples tok Hne lens lods. eexists.
    split; [apply (gen_batch_data_run examples tok Hne)|].
    split_and!.
    + by rewrite lookup_insert_eq.
    + rewrite lookup_insert_ne by done. by rewrite lookup_singleton_eq.
    + subst lods lens. by rewrite prefix_sums_length, length_fmap.
    + intros k Hk. subst lods. rewrite prefix_sums_lookup; [done|].
      subst lens. by rewrite length_fmap.
  - intros tok Hone. do 2 eexists.
    split; [apply (gen_batch_data_run ["AC"; "G"] tok ltac:(done))|].
    simpl. rewrite !Hone. simpl. split.
    + by rewrite lookup_insert_eq.
    + rewrite lookup_insert_ne by done. by rewrite lookup_singleton_eq.
Qed.

Lemma gen_batch_data_lods_witness :
  let lens := (λ e, Z.of_nat (length (Samples.char_ids e))) <$> ["AC"; "G"] in
  let lods := prefix_sums 0 lens in
  ∃ batch,
    gen_batch_data ["AC"; "G"] Samples.char_ids = Ok batch ∧
    batch !! "protein_token"
      = Some (MkLoDTensor
                (Some (np.NDArray (sum lens, 1) (concat (Samples.char_ids <$> ["AC"; "G"]))))
                [lods]) ∧
    batch !! "protein_pos"
      = Some (MkLoDTensor
                (Some (np.NDArray (sum lens, 1)
                         (concat ((λ e, np.arange (Z.of_nat (length (Samples.char_ids e))))
                                    <$> ["AC"; "G"]))))
                [lods]) ∧
    length lods = S (length ["AC"; "G"]) ∧
    (∀ k, (k ≤ length ["AC"; "G"])%nat → lods !! k = Some (sum (take k lens))).
Proof.
  apply (proj1 gen_batch_data_lods ["AC"; "G"] Samples.char_ids).
  discriminate.
Defined.

(** C8 as stated fails on the empty list of sequences: the offset table
    is then [[0]], which [set_lod] rejects at line 205, and nothing is
    returned. *)
Lemma gen_batch_data_empty_raises :
  gen_batch_data [] Samples.char_ids = Raise ValueError.
Proof. reflexivity. Qed.

(** ** Two passes *)

(** C7, as the code has it.  Two generators made from the same files, by
    two calls of the factory or two calls of the reader, hold two list
    objects and no cursor in common, whatever the task and whatever the
    masking transform does: after any interleaving of the calls of [next]
    their lists are two distinct objects, and one more call on either
    leaves the frame of the other (its file, index and offset) and the
    list of the other as they are.  For the tasks with labels from the
    archive each consumer therefore sees what it would see of its
    generator run alone, and the two passes yield the same batches; for
    the pretraining task that holds when the masking transform gives the
    same buffers for the same token ids, since it is applied anew to every
    archive on every pass. *)
Theorem two_passes_independent {W : Type}
    (apply_bert_mask : W → list Z → (list Z * list Z) * W)
    (fs : gmap string (gmap string (list Z)))
    (files : list string) (B : Z) (model_config : gmap string string)
    (r1 r2 : reader) (σ : gmap positive (list example)) (w : W) (sched : list bool)
    (who : bool) :
  get_sample_generator files B model_config = Ok r1 →
  get_sample_generator files B model_config = Ok r2 →
  let run := interleave apply_bert_mask fs r1 r2 sched
               (call_reader r1, call_reader r2, σ, w) in
  (separate run.2 ∧
   let '(g1, g2, σ1, _) := run.2 in
   let '(g1', g2', σ1', _) := (step_duo apply_bert_mask fs r1 r2 who run.2).2 in
   if who
   then g2' = g2 ∧ ∀ l, examples_loc g2 = Some l → σ1' !! l = σ1 !! l
   else g1' = g1 ∧ ∀ l, examples_loc g1 = Some l → σ1' !! l = σ1 !! l) ∧
  (repeatable apply_bert_mask (r_variant r1) →
   seen true run.1
     = solo apply_bert_mask fs r1 (calls true sched) (call_reader r1) σ w ∧
   seen false run.1
     = solo apply_bert_mask fs r2 (calls false sched) (call_reader r2) σ w ∧
   (∀ k o1 o2,
      seen true run.1 !! k = Some o1 → seen false run.1 !! k = Some o2 → o1 = o2)).
Proof.
  intros H1 H2 run. assert (r2 = r1) as -> by congruence. subst run.
  assert (separate (interleave apply_bert_mask fs r1 r1 sched
                      (call_reader r1, call_reader r1, σ, w)).2) as Hsep.
  { apply interleave_separate. unfold separate, call_reader. simpl. done. }
  split; [split; [done|]|].
  - destruct (interleave apply_bert_mask fs r1 r1 sched
                (call_reader r1, call_reader r1, σ, w)).2 as [[[g1 g2] σ1] w1].
    by apply step_duo_other.
  - intros Hrep.
    destruct (interleave_solo apply_bert_mask fs r1 sched NotStarted NotStarted σ w
                NotStarted σ w NotStarted σ w Hrep I I) as [Ht Hf].
    split_and!; [done|done|].
    intros k o1 o2 Ho1 Ho2.
    pose proof (lookup_lt_Some _ _ _ Ho1) as Hk1.
    pose proof (lookup_lt_Some _ _ _ Ho2) as Hk2.
    rewrite seen_length in Hk1, Hk2.
    unfold call_reader in *. rewrite Ht in Ho1. rewrite Hf in Ho2.
    rewrite (solo_prefix _ _ _ _ (calls false sched)) in Ho1 by done.
    congruence.
Qed.

Lemma two_passes_independent_witness :
  let r := pretrain_sample_reader ["seq_a"; "seq_b"] 2 in
  let run := interleave Samples.mask_none Samples.disk r r
               [true; false; false; true; true; false; false; true]
               (call_reader r, call_reader r, ∅, tt) in
  (separate run.2 ∧
   let '(g1, g2, σ1, _) := run.2 in
   let '(g1', g2', σ1', _) := (step_duo Samples.mask_none Samples.disk r r true run.2).2 in
   g2' = g2 ∧ ∀ l, examples_loc g2 = Some l → σ1' !! l = σ1 !! l) ∧
  seen true run.1
    = solo Samples.mask_none Samples.disk r
        (calls true [true; false; false; true; true; false; false; true])
        (call_reader r) ∅ tt ∧
  seen false run.1
    = solo Samples.mask_none Samples.disk r
        (calls false [true; false; false; true; true; false; false; true])
        (call_reader r) ∅ tt ∧
  (∀ k o1 o2,
     seen true run.1 !! k = Some o1 → seen false run.1 !! k = Some o2 → o1 = o2).
Proof.
  assert (get_sample_generator ["seq_a"; "seq_b"] 2 {[ "task" := "pretrain" ]}
          = Ok (pretrain_sample_reader ["seq_a"; "seq_b"] 2)) as Hgen by reflexivity.
  destruct (two_passes_independent Samples.mask_none Samples.disk
              ["seq_a"; "seq_b"] 2 {[ "task" := "pretrain" ]}
              (pretrain_sample_reader ["seq_a"; "seq_b"] 2)
              (pretrain_sample_reader ["seq_a"; "seq_b"] 2) ∅ tt
              [true; false; false; true; true; false; false; true] true
              Hgen Hgen) as [Hsep Hsame].
  split; [exact Hsep|]. apply Hsame. intros w w' t. reflexivity.
Defined.

(** The stand-in for the masking transform keeps the contract the
    specification gives: both buffers are as long as the token ids, and
    every position but the masked one keeps its token and carries the
    ignore label. *)
Lemma mask_one_contract (w : nat) (t : list Z) :
  let '((masked, labels), _) := Samples.mask_one w t in
  length masked = length t ∧ length labels = length t ∧
  ∀ j x, j ≠ (w mod length t)%nat → t !! j = Some x →
         masked !! j = Some x ∧ labels !! j = Some (-1).
Proof.
  unfold Samples.mask_one. simpl. split_and!.
  - by rewrite length_insert.
  - by rewrite length_insert, length_fmap.
  - intros j x Hj Hx. split.
    + by rewrite list_lookup_insert_ne.
    + rewrite list_lookup_insert_ne by done. by rewrite list_lookup_fmap, Hx.
Qed.

(** C7 as stated fails for the pretraining task under a masking transform
    that draws on its hidden state: the reader of the task ['pretrain'],
    called twice over the same archive, yields to its two consumers first
    batches that differ. *)
Lemma masked_passes_differ :
  let r := pretrain_sample_reader ["seq_a"] 2 in
  let run := interleave Samples.mask_one Samples.disk r r [true; false]
               (call_reader r, call_reader r, ∅, 0%nat) in
  get_sample_generator ["seq_a"] 2 {[ "task" := "pretrain" ]} = Ok r ∧
  ∃ b1 b2,
    seen true run.1 = [SawBatch b1] ∧
    seen false run.1 = [SawBatch b2] ∧
    tokens <$> b1 = [np.NDArray (2, 1) [0; 2]; np.NDArray (3, 1) [3; 4; 5]] ∧
    tokens <$> b2 = [np.NDArray (2, 1) [1; 0]; np.NDArray (3, 1) [3; 4; 5]] ∧
    b1 ≠ b2.
Proof.
  split; [reflexivity|]. do 2 eexists.
  split_and!; [vm_compute; reflexivity..|]. vm_compute. congruence.
Qed.

(** ** The batches of a pass are one list

    What [list(reader())] keeps of the pass over the two sequence archives
    with a batch size of two: three references to the same list, which
    holds the last, partial batch once the pass is over. *)
Example kept_batches_are_one_list :
  ∃ σ,
    collect Samples.mask_none Samples.disk 10
      (sequence_sample_reader ["seq_a"; "seq_b"] 2 "labels") NotStarted ∅ tt
      = ([1%positive; 1%positive; 1%positive], σ, Some Completed) ∧
    σ !! 1%positive
      = Some [Example (np.NDArray (1, 1) [8]) (np.NDArray (1, 1) [0])
                (np.NDArray (1, 1) [18])].
Proof. eexists. split; vm_compute; reflexivity. Qed.

(** * Further properties of the module *)

(** That sample archives fit, by computation. *)
Ltac sample_fits :=
  repeat first [lia | constructor | (vm_compute; first [lia | by intros ?])].

(** ** Passes over any archives *)

(** Whatever the archives and the batch size, also when the pass ends with
    an exception: the pass ends as the loops over the examples do, no
    batch it yields is empty, none holds more than [batch_size] examples
    when that is positive, and the batches put end to end are the examples
    built so far, all of them when no exception was raised. *)
Theorem batches_of_any_pass {W : Type}
    (apply_bert_mask : W → list Z → (list Z * list Z) * W)
    (fs : gmap string (gmap string (list Z))) (r : reader)
    (σ : gmap positive (list example)) (w : W) (fuel : nat) :
  let s := files_stream apply_bert_mask fs (r_variant r) (filenames r) w in
  (length s.1 < fuel)%nat →
  ∃ bs,
    consume apply_bert_mask fs fuel r (call_reader r) σ w
      = (bs, Some (match s.2 with Some e => Aborted e | None => Completed end)) ∧
    Forall (λ b, b ≠ []) bs ∧
    Forall (λ b, 1 <= batch_size r → Z.of_nat (length b) <= batch_size r) bs ∧
    concat bs `prefix_of` s.1 ∧
    (s.2 = None → concat bs = s.1).
Proof.
  intros s Hfuel. rewrite consume_batching by done. simpl. fold s.
  destruct s as [es t]. unfold batching. simpl in *.
  pose proof (split_full_concat (batch_size r) (length es) es) as Hcat.
  pose proof (split_full_chunks (batch_size r) (length es) es) as Hchunks.
  pose proof (split_full_shape (batch_size r) (length es) es) as Hshape.
  destruct (split_full (length es) (batch_size r) es) as [bs left]. simpl in *.
  assert (Forall (λ b : list example, b ≠ []) bs) as Hne.
  { eapply Forall_impl; [exact Hchunks|]. intros b [Hb HB] ->. simpl in Hb. lia. }
  assert (Forall (λ b : list example,
            1 <= batch_size r → Z.of_nat (length b) <= batch_size r) bs) as Hle.
  { eapply Forall_impl; [exact Hchunks|]. intros b [Hb HB] _. lia. }
  destruct t as [e|].
  - exists bs. split_and!; [done|done|done| |done]. by exists left.
  - destruct (Z.ltb_spec 0 (Z.of_nat (length left))) as [Hpos|Hzero].
    + exists (bs ++ [left]). split_and!; [done| | | |].
      * apply Forall_app. split; [done|]. constructor; [|constructor].
        intros ->. simpl in Hpos. lia.
      * apply Forall_app. split; [done|]. constructor; [|constructor].
        intros HB. destruct (Hshape HB (le_n _)) as (_ & _ & Hleft).
        pose proof (Z.mod_pos_bound (Z.of_nat (length es)) (batch_size r)). lia.
      * rewrite concat_app. simpl. rewrite app_nil_r, Hcat. done.
      * intros _. rewrite concat_app. simpl. by rewrite app_nil_r.
    + assert (left = []) as -> by (destruct left; [done|simpl in Hzero; lia]).
      rewrite app_nil_r in Hcat. exists bs. split_and!; [done|done|done| |done].
      by rewrite Hcat.
Qed.

Lemma batches_of_any_pass_witness :
  let s := files_stream Samples.mask_none Samples.disk (Scalar "labels")
             ["scalar_a"; "short"] tt in
  ∃ bs,
    consume Samples.mask_none Samples.disk 10
      (normal_sample_reader ["scalar_a"; "short"] 3 "labels")
      (call_reader (normal_sample_reader ["scalar_a"; "short"] 3 "labels")) ∅ tt
      = (bs, Some (match s.2 with Some e => Aborted e | None => Completed end)) ∧
    Forall (λ b, b ≠ []) bs ∧
    Forall (λ b, 1 <= 3 → Z.of_nat (length b) <= 3) bs ∧
    concat bs `prefix_of` s.1 ∧
    (s.2 = None → concat bs = s.1).
Proof.
  apply (batches_of_any_pass Samples.mask_none Samples.disk
           (normal_sample_reader ["scalar_a"; "short"] 3 "labels") ∅ tt 10).
  vm_compute. lia.
Defined.

(** ** Archives that cannot be opened *)

Lemma consume_load_fails {W : Type}
    (apply_bert_mask : W → list Z → (list Z * list Z) * W)
    (fs : gmap string (gmap string (list Z))) (r : reader)
    (σ : gmap positive (list example)) (w : W)
    (pre : list string) (filename : string) (post : list string)
    (ds : list loaded) (w1 : W) (e : exn) (w2 : W) (fuel : nat) :
  filenames r = pre ++ filename :: post →
  load_all apply_bert_mask fs (r_variant r) pre w = (Ok ds, w1) →
  Forall (fits (r_variant r)) ds →
  load apply_bert_mask fs (r_variant r) w1 filename = (Raise e, w2) →
  (total_examples ds < fuel)%nat →
  ∃ bs left,
    consume apply_bert_mask fs fuel r (call_reader r) σ w = (bs, Some (Aborted e)) ∧
    concat bs ++ left = concat (spec_examples (r_variant r) <$> ds) ∧
    Forall (λ b, Z.of_nat (length b) = batch_size r) bs ∧
    (1 <= batch_size r → Z.of_nat (length left) < batch_size r).
Proof.
  intros Hfiles Hpre Hfits Hload Hfuel.
  assert (files_stream apply_bert_mask fs (r_variant r) (filenames r) w
          = (concat (spec_examples (r_variant r) <$> ds), Some e)) as Hs.
  { rewrite Hfiles, (files_stream_app _ _ _ _ _ _ _ _ Hpre).
    rewrite (files_stream_fits _ _ _ _ _ _ _ Hpre Hfits). simpl.
    by rewrite Hload, app_nil_r. }
  rewrite consume_batching; [|done|simpl; rewrite Hs; simpl; by rewrite all_examples_length].
  simpl. rewrite Hs. unfold batching. simpl.
  set (es := concat (spec_examples (r_variant r) <$> ds)).
  pose proof (split_full_concat (batch_size r) (length es) es) as Hcat.
  pose proof (split_full_chunks (batch_size r) (length es) es) as Hchunks.
  pose proof (split_full_shape (batch_size r) (length es) es) as Hshape.
  destruct (split_full (length es) (batch_size r) es) as [bs left]. simpl in *.
  exists bs, left. split_and!; [done|done| |].
  - eapply Forall_impl; [exact Hchunks|]. by intros b [Hb _].
  - intros HB. destruct (Hshape HB (le_n _)) as (_ & _ & Hleft).
    pose proof (Z.mod_pos_bound (Z.of_nat (length es)) (batch_size r)). lia.
Qed.

(** A file that is not on the disk ends the pass with the [IOError] of
    [np.load] when the loop over the files reaches it: the full batches of
    the archives before it have been yielded, and the examples gathered
    since the last full batch are never yielded. *)
Theorem missing_file_aborts {W : Type}
    (apply_bert_mask : W → list Z → (list Z * list Z) * W)
    (fs : gmap string (gmap string (list Z))) (r : reader)
    (σ : gmap positive (list example)) (w : W)
    (pre : list string) (filename : string) (post : list string)
    (ds : list loaded) (w1 : W) (fuel : nat) :
  filenames r = pre ++ filename :: post →
  load_all apply_bert_mask fs (r_variant r) pre w = (Ok ds, w1) →
  Forall (fits (r_variant r)) ds →
  fs !! filename = None →
  (total_examples ds < fuel)%nat →
  ∃ bs left,
    consume apply_bert_mask fs fuel r (call_reader r) σ w
      = (bs, Some (Aborted (IOError filename))) ∧
    concat bs ++ left = concat (spec_examples (r_variant r) <$> ds) ∧
    Forall (λ b, Z.of_nat (length b) = batch_size r) bs ∧
    (1 <= batch_size r → Z.of_nat (length left) < batch_size r).
Proof.
  intros Hfiles Hpre Hfits Hnone Hfuel.
  eapply (consume_load_fails _ _ _ _ _ _ _ _ _ _ _ w1); eauto.
  unfold load, np_load. by rewrite Hnone.
Qed.

Lemma missing_file_aborts_witness :
  ∃ bs left,
    consume Samples.mask_none Samples.disk 10
      (sequence_sample_reader ["seq_a"; "seq_b"; "nowhere"; "seq_a"] 2 "labels")
      (call_reader (sequence_sample_reader ["seq_a"; "seq_b"; "nowhere"; "seq_a"] 2 "labels"))
      ∅ tt
      = (bs, Some (Aborted (IOError "nowhere"))) ∧
    concat bs ++ left
      = concat (spec_examples (SeqLabel "labels") <$> [Samples.seq_a; Samples.seq_b]) ∧
    Forall (λ b, Z.of_nat (length b) = 2) bs ∧
    (1 <= 2 → Z.of_nat (length left) < 2).
Proof.
  apply (missing_file_aborts Samples.mask_none Samples.disk
           (sequence_sample_reader ["seq_a"; "seq_b"; "nowhere"; "seq_a"] 2 "labels")
           ∅ tt ["seq_a"; "seq_b"] "nowhere" ["seq_a"]
           [Samples.seq_a; Samples.seq_b] tt 10).
  - reflexivity.
  - vm_compute. reflexivity.
  - sample_fits.
  - vm_compute. reflexivity.
  - simpl. lia.
Defined.

(** An archive without the label field ends the pass of a labelled reader
    with the [KeyError] of that field, raised when the loop over the files
    reaches the archive and before any of its examples is built; the
    pretraining reader does not look the field up. *)
Theorem missing_label_field_aborts {W : Type}
    (apply_bert_mask : W → list Z → (list Z * list Z) * W)
    (fs : gmap string (gmap string (list Z))) (r : reader) (label_name : string)
    (σ : gmap positive (list example)) (w : W)
    (pre : list string) (filename : string) (post : list string)
    (ds : list loaded) (w1 : W) (data : gmap string (list Z)) (fuel : nat) :
  r_variant r = SeqLabel label_name ∨ r_variant r = Scalar label_name →
  filenames r = pre ++ filename :: post →
  load_all apply_bert_mask fs (r_variant r) pre w = (Ok ds, w1) →
  Forall (fits (r_variant r)) ds →
  fs !! filename = Some data →
  is_Some (data !! "token_ids") →
  data !! label_name = None →
  (total_examples ds < fuel)%nat →
  (∃ bs left,
     consume apply_bert_mask fs fuel r (call_reader r) σ w
       = (bs, Some (Aborted (KeyError label_name))) ∧
     concat bs ++ left = concat (spec_examples (r_variant r) <$> ds) ∧
     Forall (λ b, Z.of_nat (length b) = batch_size r) bs ∧
     (1 <= batch_size r → Z.of_nat (length left) < batch_size r)) ∧
  (is_Some (data !! "lengths") →
   ∃ d w2, load apply_bert_mask fs Pretrain w1 filename = (Ok d, w2) ∧
           data !! "lengths" = Some (lengths d)).
Proof.
  intros Hv Hfiles Hpre Hfits Hdata [t Ht] Hnone Hfuel. split.
  - eapply (consume_load_fails _ _ _ _ _ _ _ _ _ _ _ w1); eauto.
    unfold load, np_load, field. rewrite Hdata.
    destruct Hv as [-> | ->]; simpl; by rewrite Ht, Hnone.
  - intros [n Hn]. unfold load, np_load, field. rewrite Hdata, Ht.
    destruct (apply_bert_mask w1 t) as [[m l] w2]. rewrite Hn. simpl. eauto.
Qed.

Lemma missing_label_field_aborts_witness :
  (∃ bs left,
     consume Samples.mask_none Samples.disk 10
       (normal_sample_reader ["scalar_a"; "seq_b"] 2 "targets")
       (call_reader (normal_sample_reader ["scalar_a"; "seq_b"] 2 "targets")) ∅ tt
       = (bs, Some (Aborted (KeyError "targets"))) ∧
     concat bs ++ left = concat (spec_examples (Scalar "targets") <$> []) ∧
     Forall (λ b, Z.of_nat (length b) = 2) bs ∧
     (1 <= 2 → Z.of_nat (length left) < 2)) ∧
  (is_Some (Samples.archive [1; 2; 3; 4; 5; 6] [7; 8; 9] [3; 1; 2] !! "lengths") →
   ∃ d w2, load Samples.mask_none Samples.disk Pretrain tt "scalar_a" = (Ok d, w2) ∧
           Samples.archive [1; 2; 3; 4; 5; 6] [7; 8; 9] [3; 1; 2] !! "lengths"
             = Some (lengths d)).
Proof.
  apply (missing_label_field_aborts Samples.mask_none Samples.disk
           (normal_sample_reader ["scalar_a"; "seq_b"] 2 "targets") "targets"
           ∅ tt [] "scalar_a" ["seq_b"] [] tt
           (Samples.archive [1; 2; 3; 4; 5; 6] [7; 8; 9] [3; 1; 2]) 10).
  - by right.
  - reflexivity.
  - reflexivity.
  - constructor.
  - vm_compute. reflexivity.
  - vm_compute. eauto.
  - vm_compute. reflexivity.
  - simpl. lia.
Defined.

(** ** The list behind the batches *)

(** Every batch of a pass is the same list object, the one the body
    allocates when it starts: a consumer that keeps the batches holds as
    many references to that list as batches were yielded, and after the
    pass the list holds only what was gathered since the last full
    batch. *)
Theorem yielded_batches_are_one_list {W : Type}
    (apply_bert_mask : W → list Z → (list Z * list Z) * W)
    (fs : gmap string (gmap string (list Z))) (r : reader)
    (σ : gmap positive (list example)) (w : W) (fuel : nat) :
  let s := files_stream apply_bert_mask fs (r_variant r) (filenames r) w in
  let run := consume apply_bert_mask fs fuel r (call_reader r) σ w in
  (length s.1 < fuel)%nat →
  ∃ l σ',
    (l ∉ dom σ) ∧
    collect apply_bert_mask fs fuel r (call_reader r) σ w
      = (replicate (length run.1) l, σ', run.2) ∧
    σ' !! l = Some (split_full (length s.1) (batch_size r) s.1).2.
Proof.
  intros s run Hfuel.
  destruct (collect_alias apply_bert_mask fs r NotStarted σ w fuel I Hfuel)
    as (σ' & Hcol & Hleft).
  exists (fresh (dom σ)), σ'. split_and!; [apply is_fresh|done|done].
Qed.

Lemma yielded_batches_are_one_list_witness :
  let r := sequence_sample_reader ["seq_a"; "seq_b"] 2 "labels" in
  let s := files_stream Samples.mask_none Samples.disk (r_variant r) (filenames r) tt in
  let run := consume Samples.mask_none Samples.disk 10 r (call_reader r) ∅ tt in
  ∃ l σ',
    (l ∉ dom (∅ : gmap positive (list example))) ∧
    collect Samples.mask_none Samples.disk 10 r (call_reader r) ∅ tt
      = (replicate (length run.1) l, σ', run.2) ∧
    σ' !! l = Some (split_full (length s.1) (batch_size r) s.1).2.
Proof.
  apply (yielded_batches_are_one_list Samples.mask_none Samples.disk
           (sequence_sample_reader ["seq_a"; "seq_b"] 2 "labels") ∅ tt 10).
  vm_compute. lia.
Defined.

(** A call of [next] writes to no list but the generator's own: every
    list object that is in the heap already and is not the one the
    generator holds is as it was after the call. *)
Theorem next_writes_own_list_only {W : Type}
    (apply_bert_mask : W → list Z → (list Z * list Z) * W)
    (fs : gmap string (gmap string (list Z))) (r : reader) (g : frame)
    (σ : gmap positive (list example)) (w : W) (l : positive) :
  l ∈ dom σ → examples_loc g ≠ Some l →
  (next apply_bert_mask fs r g σ w).1.2 !! l = σ !! l.
Proof.
  intros Hin Hne. pose proof (next_frame apply_bert_mask fs r g σ w) as Hf.
  destruct (next apply_bert_mask fs r g σ w) as [[[rep g'] σ'] w'].
  destruct Hf as (Hother & _). simpl. by apply Hother.
Qed.

Lemma next_writes_own_list_only_witness :
  (next Samples.mask_none Samples.disk
        (sequence_sample_reader ["seq_a"; "seq_b"] 2 "labels") NotStarted
        {[ 1%positive := [] ]} tt).1.2 !! 1%positive
  = ({[ 1%positive := [] ]} : gmap positive (list example)) !! 1%positive.
Proof.
  apply (next_writes_own_list_only Samples.mask_none Samples.disk
           (sequence_sample_reader ["seq_a"; "seq_b"] 2 "labels") NotStarted
           {[ 1%positive := [] ]} tt 1%positive).
  - apply elem_of_dom. rewrite lookup_singleton_eq. eauto.
  - simpl. discriminate.
Defined.

(** ** The segments of the ad-hoc batch *)

Lemma concat_segment {A} (f : A → list Z) (xs : list A) (k : nat) (x : A) :
  xs !! k = Some x →
  take (length (f x)) (drop (length (concat (f <$> take k xs))) (concat (f <$> xs))) = f x.
Proof.
  intros Hk. rewrite <- (take_drop_middle _ _ _ Hk) at 2.
  rewrite fmap_app, concat_app, fmap_cons. simpl.
  rewrite drop_app_length, take_app_length. done.
Qed.

Lemma slice_segment {A} (f : A → list Z) (xs : list A) (k : nat) (x : A) :
  xs !! k = Some x →
  let lens := (λ y, Z.of_nat (length (f y))) <$> xs in
  np.slice (concat (f <$> xs)) (sum (take k lens)) (sum (take (S k) lens)) = f x.
Proof.
  intros Hk lens.
  assert (lens !! k = Some (Z.of_nat (length (f x)))) as Hlen.
  { subst lens. by rewrite list_lookup_fmap, Hk. }
  rewrite (take_S_r _ _ _ Hlen), sum_app.
  replace (sum [Z.of_nat (length (f x))]) with (Z.of_nat (length (f x)))
    by (unfold sum; simpl; lia).
  subst lens. rewrite <- fmap_take, <- concat_length_sum.
  rewrite slice_inside.
  - rewrite !Nat2Z.id. by apply concat_segment.
  - lia.
  - lia.
  - assert (concat (f <$> xs)
            = concat (f <$> take k xs) ++ f x ++ concat (f <$> drop (S k) xs)) as ->.
    { rewrite <- (take_drop_middle _ _ _ Hk) at 1.
      by rewrite fmap_app, concat_app, fmap_cons. }
    rewrite !length_app. lia.
Qed.

(** For a list of sequences that is not empty, whatever the tokenizer
    gives, [gen_batch_data] raises nothing and its offset table delimits
    the sequences in both flat buffers: it starts at 0 and ends at the
    number of rows, which both tensors share; and the rows between entry
    [k] and entry [k+1] are the token ids of sequence [k] in
    [protein_token] and its positions [0..len-1] in [protein_pos]. *)
Theorem gen_batch_data_segments (examples : list string)
    (gen_token_ids : string → list Z) :
  examples ≠ [] →
  ∃ batch tokens positions lods,
    gen_batch_data examples gen_token_ids = Ok batch ∧
    batch !! "protein_token" = Some (MkLoDTensor (Some tokens) [lods]) ∧
    batch !! "protein_pos" = Some (MkLoDTensor (Some positions) [lods]) ∧
    lods !! 0%nat = Some 0 ∧
    last lods = Some (Z.of_nat (length (np.data tokens))) ∧
    np.shape tokens = (Z.of_nat (length (np.data tokens)), 1) ∧
    np.shape positions = (Z.of_nat (length (np.data positions)), 1) ∧
    length (np.data positions) = length (np.data tokens) ∧
    ∀ k e, examples !! k = Some e →
      ∃ a b, lods !! k = Some a ∧ lods !! S k = Some b ∧ a <= b ∧
        np.slice (np.data tokens) a b = gen_token_ids e ∧
        np.slice (np.data positions) a b
          = np.arange (Z.of_nat (length (gen_token_ids e))).
Proof.
  intros Hne.
  pose proof (gen_batch_data_run examples gen_token_ids Hne) as Hrun. simpl in Hrun.
  set (lens := (λ e, Z.of_nat (length (gen_token_ids e))) <$> examples) in *.
  set (pos_of := λ e, np.arange (Z.of_nat (length (gen_token_ids e)))).
  assert ((λ e, Z.of_nat (length (pos_of e))) <$> examples = lens) as Hlens.
  { subst lens pos_of. apply list_fmap_ext. intros _ e _. simpl.
    rewrite arange_length. lia. }
  assert (Z.of_nat (length (concat (gen_token_ids <$> examples))) = sum lens) as Htok
    by apply concat_length_sum.
  assert (Z.of_nat (length (concat (pos_of <$> examples))) = sum lens) as Hpos
    by (rewrite concat_length_sum; by rewrite Hlens).
  do 4 eexists. split; [exact Hrun|]. split_and!.
  - by rewrite lookup_insert_eq.
  - rewrite lookup_insert_ne by done. by rewrite lookup_singleton_eq.
  - by destruct lens.
  - rewrite last_lookup, prefix_sums_length. simpl.
    rewrite prefix_sums_lookup by done. rewrite take_ge by done.
    simpl. rewrite Htok. done.
  - simpl. by rewrite Htok.
  - simpl. fold pos_of. by rewrite Hpos.
  - simpl. fold pos_of. lia.
  - intros k e Hk. simpl. fold pos_of.
    pose proof (lookup_lt_Some _ _ _ Hk) as Hlt.
    assert (length lens = length examples) as Hlen by (subst lens; by rewrite length_fmap).
    assert (lens !! k = Some (Z.of_nat (length (gen_token_ids e)))) as Hlk.
    { subst lens. by rewrite list_lookup_fmap, Hk. }
    exists (sum (take k lens)), (sum (take (S k) lens)). split_and!.
    + by rewrite prefix_sums_lookup by lia.
    + by rewrite prefix_sums_lookup by lia.
    + rewrite (take_S_r _ _ _ Hlk), sum_app. unfold sum at 3. simpl. lia.
    + by apply (slice_segment gen_token_ids).
    + pose proof (slice_segment pos_of examples k e Hk) as Hseg. simpl in Hseg.
      rewrite Hlens in Hseg. exact Hseg.
Qed.

Lemma gen_batch_data_segments_witness :
  ∃ batch tokens positions lods,
    gen_batch_data ["AC"; ""; "G"] Samples.char_ids = Ok batch ∧
    batch !! "protein_token" = Some (MkLoDTensor (Some tokens) [lods]) ∧
    batch !! "protein_pos" = Some (MkLoDTensor (Some positions) [lods]) ∧
    lods !! 0%nat = Some 0 ∧
    last lods = Some (Z.of_nat (length (np.data tokens))) ∧
    np.shape tokens = (Z.of_nat (length (np.data tokens)), 1) ∧
    np.shape positions = (Z.of_nat (length (np.data positions)), 1) ∧
    length (np.data positions) = length (np.data tokens) ∧
    ∀ k e, ["AC"; ""; "G"] !! k = Some e →
      ∃ a b, lods !! k = Some a ∧ lods !! S k = Some b ∧ a <= b ∧
        np.slice (np.data tokens) a b = Samples.char_ids e ∧
        np.slice (np.data positions) a b
          = np.arange (Z.of_nat (length (Samples.char_ids e))).
Proof.
  apply (gen_batch_data_segments ["AC"; ""; "G"] Samples.char_ids).
  discriminate.
Defined.

(** ** The flat buffers, cut and put together again *)

Lemma token_slices_concat v d k :
  fits v d → (k ≤ length (lengths d))%nat →
  concat ((λ e, np.data (tokens e)) <$> (spec_example v d <$> seq 0 k))
    = take (Z.to_nat (offset_of d k)) (token_ids d).
Proof.
  intros (Hpos & Hsum & _). induction k as [|k IH]; intros Hk; [done|].
  destruct (lookup_lt_is_Some_2 (lengths d) k) as [len_k Hl]; [lia|].
  pose proof (offset_of_bounds d k Hpos) as Hb.
  pose proof (offset_of_bounds d (S k) Hpos) as Hb'.
  rewrite (offset_of_S _ _ _ Hl) in *.
  assert (0 <= len_k) as Hlen by (by eapply (Forall_lookup_1 _ _ _ _ Hpos)).
  rewrite seq_S, !fmap_app, concat_app, IH by lia. simpl.
  rewrite Hl. simpl.
  rewrite slice_inside, app_nil_r by lia.
  rewrite take_take_drop. f_equal. lia.
Qed.

Lemma token_label_slices_concat v d k :
  per_example v = false → fits v d → (k ≤ length (lengths d))%nat →
  concat ((λ e, np.data (label e)) <$> (spec_example v d <$> seq 0 k))
    = take (Z.to_nat (offset_of d k)) (labels d).
Proof.
  intros Hv (Hpos & _ & Hlab). rewrite Hv in Hlab.
  induction k as [|k IH]; intros Hk; [done|].
  destruct (lookup_lt_is_Some_2 (lengths d) k) as [len_k Hl]; [lia|].
  pose proof (offset_of_bounds d k Hpos) as Hb.
  pose proof (offset_of_bounds d (S k) Hpos) as Hb'.
  rewrite (offset_of_S _ _ _ Hl) in *.
  assert (0 <= len_k) as Hlen by (by eapply (Forall_lookup_1 _ _ _ _ Hpos)).
  rewrite seq_S, !fmap_app, concat_app, IH by lia. simpl.
  rewrite Hl, Hv. simpl.
  rewrite slice_inside, app_nil_r by lia.
  rewrite take_take_drop. f_equal. lia.
Qed.

Lemma example_label_slices_concat v d k :
  per_example v = true → (k ≤ length (labels d))%nat →
  concat ((λ e, np.data (label e)) <$> (spec_example v d <$> seq 0 k))
    = take k (labels d).
Proof.
  intros Hv. induction k as [|k IH]; intros Hk; [done|].
  destruct (lookup_lt_is_Some_2 (labels d) k) as [x Hx]; [lia|].
  rewrite seq_S, !fmap_app, concat_app, IH by lia. simpl.
  rewrite Hv. simpl.
  rewrite (slice_one _ _ _ Hx), (take_S_r _ _ _ Hx). done.
Qed.

Lemma archive_buffers_back v d :
  well_formed v d →
  concat ((λ e, np.data (tokens e)) <$> spec_examples v d) = token_ids d ∧
  concat ((λ e, np.data (label e)) <$> spec_examples v d) = labels d.
Proof.
  intros Hwf. pose proof (well_formed_fits _ _ Hwf) as Hfits.
  destruct Hwf as (Hpos & Hsum & Hlab). unfold spec_examples.
  assert (offset_of d (length (lengths d)) = sum (lengths d)) as Hoff
    by (unfold offset_of; by rewrite take_ge).
  split.
  - rewrite token_slices_concat, Hoff, Hsum, Nat2Z.id by done. by rewrite take_ge.
  - destruct (per_example v) eqn:Hv.
    + rewrite example_label_slices_concat by (done || lia). rewrite take_ge; [done|lia].
    + rewrite token_label_slices_concat, Hoff, Hsum, Nat2Z.id by done.
      rewrite take_ge; [done|lia].
Qed.

(** A pass over well-formed archives loses and repeats nothing of the flat
    buffers: the token columns of its examples, one after the other, are
    the token buffers of the archives in the order of the files, and the
    label arrays are the label buffers. *)
Theorem pass_gives_back_the_buffers {W : Type}
    (apply_bert_mask : W → list Z → (list Z * list Z) * W)
    (fs : gmap string (gmap string (list Z))) (r : reader)
    (σ : gmap positive (list example)) (w : W) (ds : list loaded) (fuel : nat) :
  (load_all apply_bert_mask fs (r_variant r) (filenames r) w).1 = Ok ds →
  Forall (well_formed (r_variant r)) ds →
  (total_examples ds < fuel)%nat →
  ∃ bs,
    consume apply_bert_mask fs fuel r (call_reader r) σ w = (bs, Some Completed) ∧
    concat ((λ e, np.data (tokens e)) <$> concat bs) = concat (token_ids <$> ds) ∧
    concat ((λ e, np.data (label e)) <$> concat bs) = concat (labels <$> ds).
Proof.
  intros Hload Hwf Hfuel.
  destruct (consume_concat apply_bert_mask fs r σ w ds fuel Hload
              (Forall_well_formed_fits _ _ Hwf) Hfuel) as (bs & Hrun & Hcat).
  exists bs. split; [done|]. rewrite Hcat. clear Hrun Hcat Hload Hfuel.
  induction Hwf as [|d ds Hd Hds IH]; [done|].
  rewrite !fmap_cons. simpl. rewrite !fmap_app, !concat_app.
  destruct IH as [-> ->]. by destruct (archive_buffers_back _ _ Hd) as [-> ->].
Qed.

Lemma pass_gives_back_the_buffers_witness :
  ∃ bs,
    consume Samples.mask_none Samples.disk 10
      (normal_sample_reader ["scalar_a"] 2 "labels")
      (call_reader (normal_sample_reader ["scalar_a"] 2 "labels")) ∅ tt
      = (bs, Some Completed) ∧
    concat ((λ e, np.data (tokens e)) <$> concat bs)
      = concat (token_ids <$> [Samples.scalar_a]) ∧
    concat ((λ e, np.data (label e)) <$> concat bs)
      = concat (labels <$> [Samples.scalar_a]).
Proof.
  apply (pass_gives_back_the_buffers Samples.mask_none Samples.disk
           (normal_sample_reader ["scalar_a"] 2 "labels") ∅ tt [Samples.scalar_a] 10).
  - vm_compute. reflexivity.
  - sample_well_formed.
  - simpl. lia.
Defined.

(** ** Passes over a list of files in two parts *)

Lemma split_full_app B n1 n2 n es1 es2 :
  1 <= B → Z.of_nat (length es1) mod B = 0 →
  (length es1 ≤ n1)%nat → (length es2 ≤ n2)%nat → (length es1 + length es2 ≤ n)%nat →
  split_full n B (es1 ++ es2)
    = ((split_full n1 B es1).1 ++ (split_full n2 B es2).1, (split_full n2 B es2).2).
Proof.
  intros HB. revert n es1.
  induction n1 as [|n1 IH]; intros n es1 Hmod H1 H2 Hn.
  - destruct es1; [|simpl in H1; lia]. simpl.
    rewrite (split_full_fuel B n n2) by (simpl in *; lia).
    by destruct (split_full n2 B es2).
  - simpl. destruct (fills B es1) eqn:Hf.
    + apply fills_iff in Hf.
      destruct n as [|n]; [lia|]. simpl.
      rewrite fills_true by (rewrite length_app; lia).
      rewrite take_app_le, drop_app_le by lia.
      rewrite (IH n (drop (Z.to_nat B) es1)).
      * by destruct (split_full n1 B (drop (Z.to_nat B) es1)).
      * rewrite length_drop.
        replace (Z.of_nat (length es1 - Z.to_nat B))
          with (Z.of_nat (length es1) + (-1) * B) by lia.
        by rewrite Z.mod_add by lia.
      * rewrite length_drop. lia.
      * done.
      * rewrite length_drop. lia.
    + apply not_true_iff_false in Hf. rewrite fills_iff in Hf.
      rewrite Z.mod_small in Hmod by lia.
      destruct es1; [|simpl in Hmod; lia]. simpl.
      rewrite (split_full_fuel B n n2) by (simpl in *; lia).
      by destruct (split_full n2 B es2).
Qed.

Lemma batching_app B es1 es2 t :
  1 <= B → Z.of_nat (length es1) mod B = 0 →
  batching B (es1 ++ es2, t)
    = ((batching B (es1, None)).1 ++ (batching B (es2, t)).1, (batching B (es2, t)).2).
Proof.
  intros HB Hmod. unfold batching. simpl.
  rewrite (split_full_app B (length es1) (length es2)) by (rewrite ?length_app; lia).
  pose proof (split_full_shape B (length es1) es1 HB (le_n _)) as (_ & _ & Hleft).
  destruct (split_full (length es1) B es1) as [bs1 left1].
  destruct (split_full (length es2) B es2) as [bs2 left2]. simpl in *.
  assert (left1 = []) as -> by (destruct left1; [done|simpl in *; lia]). simpl.
  destruct t; simpl; [done|].
  destruct (0 <? Z.of_nat (length left2)); simpl; [|done]. by rewrite app_assoc.
Qed.

(** When the archives of the first part of the file list fit and hold a
    multiple of [batch_size] examples, the pass over the whole list yields
    the batches of the pass over the first part and then those of a pass
    over the second part, and ends as that one does: no batch spans the two
    parts. *)
Theorem passes_compose {W : Type}
    (apply_bert_mask : W → list Z → (list Z * list Z) * W)
    (fs : gmap string (gmap string (list Z))) (v : variant) (B : Z)
    (pre post : list string) (σ σ1 σ2 : gmap positive (list example)) (w : W)
    (ds : list loaded) (w1 : W) (fuel : nat) :
  load_all apply_bert_mask fs v pre w = (Ok ds, w1) →
  Forall (fits v) ds →
  1 <= B →
  Z.of_nat (total_examples ds) mod B = 0 →
  (total_examples ds + length (files_stream apply_bert_mask fs v post w1).1 < fuel)%nat →
  consume apply_bert_mask fs fuel (Reader v (pre ++ post) B) NotStarted σ w
    = ((consume apply_bert_mask fs fuel (Reader v pre B) NotStarted σ1 w).1 ++
       (consume apply_bert_mask fs fuel (Reader v post B) NotStarted σ2 w1).1,
       (consume apply_bert_mask fs fuel (Reader v post B) NotStarted σ2 w1).2).
Proof.
  intros Hpre Hfits HB Hmod Hfuel.
  pose proof (files_stream_fits _ _ _ _ _ _ _ Hpre Hfits) as Hs1.
  pose proof (files_stream_app apply_bert_mask fs v pre post w ds w1 Hpre) as Hs.
  rewrite Hs1 in Hs. simpl in Hs.
  rewrite !consume_batching; simpl; rewrite ?Hs, ?Hs1; simpl;
    rewrite ?length_app, ?all_examples_length; try done; try lia.
  destruct (files_stream apply_bert_mask fs v post w1) as [es2 t]. simpl.
  apply batching_app; [done|]. by rewrite all_examples_length.
Qed.

Lemma passes_compose_witness :
  consume Samples.mask_none Samples.disk 10
    (Reader (SeqLabel "labels") (["seq_a"] ++ ["seq_b"; "nowhere"]) 2) NotStarted ∅ tt
  = ((consume Samples.mask_none Samples.disk 10
        (Reader (SeqLabel "labels") ["seq_a"] 2) NotStarted ∅ tt).1 ++
     (consume Samples.mask_none Samples.disk 10
        (Reader (SeqLabel "labels") ["seq_b"; "nowhere"] 2) NotStarted ∅ tt).1,
     (consume Samples.mask_none Samples.disk 10
        (Reader (SeqLabel "labels") ["seq_b"; "nowhere"] 2) NotStarted ∅ tt).2).
Proof.
  apply (passes_compose Samples.mask_none Samples.disk (SeqLabel "labels") 2
           ["seq_a"] ["seq_b"; "nowhere"] ∅ ∅ ∅ tt [Samples.seq_a] tt 10).
  - vm_compute. reflexivity.
  - sample_fits.
  - lia.
  - reflexivity.
  - vm_compute. lia.
Defined.

(** ** Fewer labels than examples *)

Lemma make_example_scalar name d i len_i x :
  Forall (λ len, 0 <= len) (lengths d) →
  sum (lengths d) <= Z.of_nat (length (token_ids d)) →
  lengths d !! i = Some len_i → labels d !! i = Some x →
  make_example (Scalar name) d i (offset_of d i) len_i
    = Ok (spec_example (Scalar name) d i).
Proof.
  intros Hpos Hsum Hi Hx.
  pose proof (offset_of_bounds d i Hpos) as Hoff.
  pose proof (offset_of_bounds d (S i) Hpos) as Hoff'.
  rewrite (offset_of_S _ _ _ Hi) in Hoff'.
  assert (0 <= len_i) as Hlen by (by eapply (Forall_lookup_1 _ _ _ _ Hpos)).
  unfold make_example, spec_example. rewrite Hi. simpl.
  rewrite reshape_column; [|done|apply slice_inside_length; lia]. simpl.
  rewrite reshape_column; [|done|rewrite arange_length; lia]. simpl.
  by rewrite (slice_one _ _ _ Hx).
Qed.

Lemma make_example_scalar_no_label name d i len_i :
  Forall (λ len, 0 <= len) (lengths d) →
  sum (lengths d) <= Z.of_nat (length (token_ids d)) →
  lengths d !! i = Some len_i → i = length (labels d) →
  make_example (Scalar name) d i (offset_of d i) len_i = Raise ValueError.
Proof.
  intros Hpos Hsum Hi ->.
  pose proof (offset_of_bounds d (length (labels d)) Hpos) as Hoff.
  pose proof (offset_of_bounds d (S (length (labels d))) Hpos) as Hoff'.
  rewrite (offset_of_S _ _ _ Hi) in Hoff'.
  assert (0 <= len_i) as Hlen by (by eapply (Forall_lookup_1 _ _ _ _ Hpos)).
  unfold make_example.
  rewrite reshape_column; [|done|apply slice_inside_length; lia]. simpl.
  rewrite reshape_column; [|done|rewrite arange_length; lia]. simpl.
  assert (np.slice (labels d) (Z.of_nat (length (labels d)))
            (Z.of_nat (length (labels d)) + 1) = []) as ->; [|done].
  unfold np.slice, np.clip.
  destruct (Z.ltb_spec (Z.of_nat (length (labels d))) 0); [lia|].
  destruct (Z.ltb_spec (Z.of_nat (length (labels d)) + 1) 0); [lia|].
  rewrite Z.min_r, Z.min_id, Z.sub_diag by lia. done.
Qed.

Lemma file_stream_few_labels_from name d k i :
  Forall (λ len, 0 <= len) (lengths d) →
  sum (lengths d) <= Z.of_nat (length (token_ids d)) →
  (length (labels d) < length (lengths d))%nat →
  (i + k = length (lengths d))%nat → (i ≤ length (labels d))%nat →
  file_stream (Scalar name) d (seq i k) (offset_of d i)
    = (spec_example (Scalar name) d <$> seq i (length (labels d) - i), Some ValueError).
Proof.
  intros Hpos Hsum Hfew. revert i. induction k as [|k IH]; intros i Hik Hi; [lia|].
  simpl. unfold np.getitem.
  destruct (lookup_lt_is_Some_2 (lengths d) i) as [len_i Hl]; [lia|].
  rewrite Hl.
  destruct (decide (i = length (labels d))) as [Heq|Hne].
  - rewrite (make_example_scalar_no_label _ _ _ _ Hpos Hsum Hl Heq).
    by replace (length (labels d) - i)%nat with 0%nat by lia.
  - destruct (lookup_lt_is_Some_2 (labels d) i) as [x Hx]; [lia|].
    rewrite (make_example_scalar _ _ _ _ _ Hpos Hsum Hl Hx).
    rewrite <- (offset_of_S _ _ _ Hl), IH by lia.
    by replace (length (labels d) - i)%nat with (S (length (labels d) - S i)) by lia.
Qed.

(** The scalar-label reader takes label [i] for example [i] and does not
    compare the number of labels with the number of lengths.  With fewer
    labels than lengths (token counts that fit the token buffer), a pass
    that reaches the archive after ones that fit builds exactly one
    example for each label, the examples [0 .. len(labels) - 1] of the
    archive, and then ends with the [ValueError] of [reshape(1, 1)] on the
    empty slice [labels[i:i+1]] at example [len(labels)].  The batches
    yielded before the error are the full batches of the examples built,
    in order; what is left over, fewer than [batch_size] examples, is
    never yielded. *)
Theorem too_few_labels_raise {W : Type}
    (apply_bert_mask : W → list Z → (list Z * list Z) * W)
    (fs : gmap string (gmap string (list Z))) (r : reader) (label_name : string)
    (σ : gmap positive (list example)) (w : W)
    (pre : list string) (filename : string) (post : list string)
    (ds : list loaded) (w1 : W) (d : loaded) (w2 : W) (fuel : nat) :
  r_variant r = Scalar label_name →
  filenames r = pre ++ filename :: post →
  load_all apply_bert_mask fs (r_variant r) pre w = (Ok ds, w1) →
  Forall (fits (r_variant r)) ds →
  load apply_bert_mask fs (r_variant r) w1 filename = (Ok d, w2) →
  Forall (λ len, 0 <= len) (lengths d) →
  sum (lengths d) <= Z.of_nat (length (token_ids d)) →
  (length (labels d) < length (lengths d))%nat →
  (total_examples ds + length (labels d) < fuel)%nat →
  ∃ (len_n : Z) (bs : list (list example)) (left : list example),
    lengths d !! length (labels d) = Some len_n ∧
    np.slice (labels d) (Z.of_nat (length (labels d))) (Z.of_nat (length (labels d)) + 1)
      = [] ∧
    make_example (r_variant r) d (length (labels d))
      (offset_of d (length (labels d))) len_n = Raise ValueError ∧
    files_stream apply_bert_mask fs (r_variant r) (filenames r) w
      = (concat (spec_examples (r_variant r) <$> ds) ++
         (spec_example (r_variant r) d <$> seq 0 (length (labels d))),
         Some ValueError) ∧
    consume apply_bert_mask fs fuel r (call_reader r) σ w
      = (bs, Some (Aborted ValueError)) ∧
    concat bs ++ left
      = concat (spec_examples (r_variant r) <$> ds) ++
        (spec_example (r_variant r) d <$> seq 0 (length (labels d))) ∧
    Forall (λ b, Z.of_nat (length b) = batch_size r) bs ∧
    (1 <= batch_size r → Z.of_nat (length left) < batch_size r).
Proof.
  intros Hv Hfiles Hpre Hfits Hload Hpos Hsum Hfew Hfuel.
  destruct (lookup_lt_is_Some_2 (lengths d) (length (labels d))) as [len_n Hn]; [done|].
  assert (files_stream apply_bert_mask fs (r_variant r) (filenames r) w
          = (concat (spec_examples (r_variant r) <$> ds) ++
             (spec_example (r_variant r) d <$> seq 0 (length (labels d))),
             Some ValueError)) as Hs.
  { rewrite Hfiles, (files_stream_app _ _ _ _ _ _ _ _ Hpre).
    rewrite (files_stream_fits _ _ _ _ _ _ _ Hpre Hfits). simpl. rewrite Hload.
    rewrite Hv. unfold range_from. rewrite Nat.sub_0_r.
    pose proof (file_stream_few_labels_from label_name d (length (lengths d)) 0
                  Hpos Hsum Hfew eq_refl ltac:(lia)) as Hd.
    rewrite offset_of_0, Nat.sub_0_r in Hd. rewrite Hd. done. }
  destruct (consume_stream_aborts apply_bert_mask fs r σ w _ ValueError fuel Hs)
    as (bs & left & Hrun & Hcat & Hfull & Hleft).
  { rewrite length_app, all_examples_length, length_fmap, length_seq. lia. }
  exists len_n, bs, left. split_and!; try done.
  - unfold np.slice, np.clip.
    destruct (Z.ltb_spec (Z.of_nat (length (labels d))) 0); [lia|].
    destruct (Z.ltb_spec (Z.of_nat (length (labels d)) + 1) 0); [lia|].
    rewrite Z.min_r, Z.min_id, Z.sub_diag by lia. done.
  - rewrite Hv. by apply make_example_scalar_no_label.
Qed.

Lemma too_few_labels_raise_witness :
  ∃ (len_n : Z) (bs : list (list example)) (left : list example),
    lengths Samples.few_labels !! length (labels Samples.few_labels) = Some len_n ∧
    np.slice (labels Samples.few_labels)
      (Z.of_nat (length (labels Samples.few_labels)))
      (Z.of_nat (length (labels Samples.few_labels)) + 1) = [] ∧
    make_example (Scalar "labels") Samples.few_labels (length (labels Samples.few_labels))
      (offset_of Samples.few_labels (length (labels Samples.few_labels))) len_n
      = Raise ValueError ∧
    files_stream Samples.mask_none Samples.disk_few_labels (Scalar "labels") ["few"] tt
      = (concat (spec_examples (Scalar "labels") <$> []) ++
         (spec_example (Scalar "labels") Samples.few_labels
            <$> seq 0 (length (labels Samples.few_labels))),
         Some ValueError) ∧
    consume Samples.mask_none Samples.disk_few_labels 10
      (normal_sample_reader ["few"] 1 "labels")
      (call_reader (normal_sample_reader ["few"] 1 "labels")) ∅ tt
      = (bs, Some (Aborted ValueError)) ∧
    concat bs ++ left
      = concat (spec_examples (Scalar "labels") <$> []) ++
        (spec_example (Scalar "labels") Samples.few_labels
           <$> seq 0 (length (labels Samples.few_labels))) ∧
    Forall (λ b, Z.of_nat (length b) = 1) bs ∧
    (1 <= 1 → Z.of_nat (length left) < 1).
Proof.
  apply (too_few_labels_raise Samples.mask_none Samples.disk_few_labels
           (normal_sample_reader ["few"] 1 "labels") "labels" ∅ tt
           [] "few" [] [] tt Samples.few_labels tt 10).
  - reflexivity.
  - reflexivity.
  - reflexivity.
  - constructor.
  - vm_compute. reflexivity.
  - sample_fits.
  - vm_compute. by intros ?.
  - simpl. lia.
  - simpl. lia.
Defined.

(** ** What a reader looks at on the disk *)

Lemma load_same_fields {W : Type}
    (apply_bert_mask : W → list Z → (list Z * list Z) * W)
    (fs fs' : gmap string (gmap string (list Z))) (v : variant) (w : W)
    (filename : string) :
  same_fields v fs fs' →
  load apply_bert_mask fs v w filename = load apply_bert_mask fs' v w filename.
Proof.
  intros Hsame. specialize (Hsame filename). unfold load, np_load, field.
  destruct (fs !! filename) as [data|], (fs' !! filename) as [data'|]; try done.
  destruct v as [|name|name]; simpl in Hsame.
  - rewrite (Hsame "token_ids"), (Hsame "lengths"); [done|set_solver..].
  - rewrite (Hsame "token_ids"), (Hsame name), (Hsame "lengths"); [done|set_solver..].
  - rewrite (Hsame "token_ids"), (Hsame name), (Hsame "lengths"); [done|set_solver..].
Qed.

Lemma files_loop_same_fields {W : Type}
    (apply_bert_mask : W → list Z → (list Z * list Z) * W)
    (fs fs' : gmap string (gmap string (list Z))) (v : variant) (B : Z)
    (files : list string) (w : W) (acc : list example) :
  same_fields v fs fs' →
  files_loop apply_bert_mask fs v B files w acc
    = files_loop apply_bert_mask fs' v B files w acc.
Proof.
  intros Hsame. revert w acc. induction files as [|f rest IH]; intros w acc; simpl; [done|].
  rewrite (load_same_fields apply_bert_mask fs fs' v w f Hsame).
  destruct (load apply_bert_mask fs' v w f) as [[d|e] w']; [|done].
  destruct (file_loop v B d (range_from d 0) 0 acc) as [x acc'].
  destruct (loop_outcome rest d x); [done|]. apply IH.
Qed.

Lemma next_same_fields {W : Type}
    (apply_bert_mask : W → list Z → (list Z * list Z) * W)
    (fs fs' : gmap string (gmap string (list Z))) (r : reader) (g : frame)
    (σ : gmap positive (list example)) (w : W) :
  same_fields (r_variant r) fs fs' →
  next apply_bert_mask fs r g σ w = next apply_bert_mask fs' r g σ w.
Proof.
  intros Hsame. destruct g as [|l rest d i offset|l|]; simpl; [| |done|done].
  - by rewrite (files_loop_same_fields apply_bert_mask fs fs' _ _ _ _ _ Hsame).
  - unfold resume49. destruct (np.getitem _ _); [|done].
    destruct (file_loop _ _ _ _ _ _) as [x acc].
    destruct (loop_outcome rest d x); [done|].
    by rewrite (files_loop_same_fields apply_bert_mask fs fs' _ _ _ _ _ Hsame).
Qed.

(** A reader looks at nothing on the disk but the fields of its variant in
    the archives: [token_ids] and [lengths], and for the labelled readers
    the field named [label_name].  Two disks that hold the same files and
    agree on these fields give the same pass, whatever else the archives
    hold; the pretraining reader in particular never reads a label
    field. *)
Theorem readers_read_their_fields_only {W : Type}
    (apply_bert_mask : W → list Z → (list Z * list Z) * W)
    (fs fs' : gmap string (gmap string (list Z))) (r : reader) (g : frame)
    (σ : gmap positive (list example)) (w : W) (fuel : nat) :
  same_fields (r_variant r) fs fs' →
  consume apply_bert_mask fs fuel r g σ w = consume apply_bert_mask fs' fuel r g σ w.
Proof.
  intros Hsame. revert g σ w. induction fuel as [|fuel IH]; intros g σ w; [done|].
  simpl. rewrite (next_same_fields apply_bert_mask fs fs' r g σ w Hsame).
  destruct (next apply_bert_mask fs' r g σ w) as [[[[l| |e] g'] σ'] w']; [|done|done].
  by rewrite IH.
Qed.

Lemma readers_read_their_fields_only_witness :
  consume Samples.mask_none Samples.disk_a 10
    (pretrain_sample_reader ["seq_a"; "nowhere"] 1) NotStarted ∅ tt
  = consume Samples.mask_none Samples.disk' 10
      (pretrain_sample_reader ["seq_a"; "nowhere"] 1) NotStarted ∅ tt.
Proof.
  apply (readers_read_their_fields_only Samples.mask_none Samples.disk_a Samples.disk'
           (pretrain_sample_reader ["seq_a"; "nowhere"] 1) NotStarted ∅ tt 10).
  intros filename. unfold Samples.disk_a, Samples.disk'.
  destruct (decide (filename = "seq_a")) as [->|Hne].
  - rewrite !lookup_singleton_eq. intros key Hkey. simpl in Hkey.
    apply elem_of_cons in Hkey as [->|Hkey]; [reflexivity|].
    apply elem_of_cons in Hkey as [->|Hkey]; [reflexivity|].
    by apply elem_of_nil in Hkey.
  - by rewrite !lookup_singleton_ne by done.
Defined.

(** ** Archives that keep the invariant *)

Lemma load_archive_well_formed {W : Type}
    (apply_bert_mask : W → list Z → (list Z * list Z) * W)
    (fs : gmap string (gmap string (list Z))) (v : variant) (w : W)
    (filename : string) (data : gmap string (list Z)) :
  (v = Pretrain → mask_keeps_length apply_bert_mask) →
  fs !! filename = Some data → archive_well_formed v data →
  ∃ d w', load apply_bert_mask fs v w filename = (Ok d, w') ∧ well_formed v d ∧
          data !! "lengths" = Some (lengths d).
Proof.
  intros Hmask Hdata (t & n & Ht & Hn & Hpos & Hsum & Hlab).
  unfold load, np_load, field. rewrite Hdata.
  destruct v as [|name|name].
  - rewrite Ht. specialize (Hmask eq_refl w t).
    destruct (apply_bert_mask w t) as [[m l] w']. simpl in Hmask.
    destruct Hmask as [Hm Hl]. rewrite Hn. simpl.
    exists (Loaded m l n), w'. split_and!; [done| |done].
    unfold well_formed. simpl. split_and!; [done|lia|lia].
  - destruct Hlab as (l & Hl & Hlen). rewrite Ht, Hl, Hn. simpl.
    exists (Loaded t l n), w. by split_and!.
  - destruct Hlab as (l & Hl & Hlen). rewrite Ht, Hl, Hn. simpl.
    exists (Loaded t l n), w. by split_and!.
Qed.

(** When every file of the list is on the disk and keeps the invariant of
    an archive (and, for the pretraining task, the masking transform
    returns buffers as long as the token ids), a pass opens them all, ends
    normally, and yields one example for each entry of the [lengths] of
    each archive. *)
Theorem well_formed_archives_pass {W : Type}
    (apply_bert_mask : W → list Z → (list Z * list Z) * W)
    (fs : gmap string (gmap string (list Z))) (r : reader)
    (σ : gmap positive (list example)) (w : W) :
  (r_variant r = Pretrain → mask_keeps_length apply_bert_mask) →
  Forall (λ filename, ∃ data, fs !! filename = Some data ∧
                              archive_well_formed (r_variant r) data) (filenames r) →
  ∃ ds bs,
    (load_all apply_bert_mask fs (r_variant r) (filenames r) w).1 = Ok ds ∧
    Forall (well_formed (r_variant r)) ds ∧
    Forall2 (λ filename d, ∃ data, fs !! filename = Some data ∧
                                   data !! "lengths" = Some (lengths d))
            (filenames r) ds ∧
    consume apply_bert_mask fs (S (total_examples ds)) r (call_reader r) σ w
      = (bs, Some Completed) ∧
    length (concat bs) = total_examples ds.
Proof.
  intros Hmask Hfiles.
  assert (∃ ds,
    (load_all apply_bert_mask fs (r_variant r) (filenames r) w).1 = Ok ds ∧
    Forall (well_formed (r_variant r)) ds ∧
    Forall2 (λ filename d, ∃ data, fs !! filename = Some data ∧
                                   data !! "lengths" = Some (lengths d))
            (filenames r) ds) as (ds & Hload & Hwf & Hlens).
  { revert w. induction Hfiles as [|f files (data & Hdata & Harch) _ IH]; intros w.
    - exists []. by split_and!.
    - destruct (load_archive_well_formed apply_bert_mask fs (r_variant r) w f data
                  Hmask Hdata Harch) as (d & w' & Hd & Hwfd & Hlen).
      destruct (IH w') as (ds & Hds & Hwf & Hlens).
      exists (d :: ds). simpl. rewrite Hd.
      destruct (load_all apply_bert_mask fs (r_variant r) files w') as [res w''].
      simpl in Hds. subst res. split_and!; [done|by constructor|].
      constructor; [by exists data|done]. }
  destruct (consume_concat apply_bert_mask fs r σ w ds (S (total_examples ds)) Hload
              (Forall_well_formed_fits _ _ Hwf) ltac:(lia)) as (bs & Hrun & Hcat).
  exists ds, bs. split_and!; [done|done|done|done|].
  by rewrite Hcat, all_examples_length.
Qed.

Lemma well_formed_archives_pass_witness :
  ∃ ds bs,
    (load_all Samples.mask_none Samples.disk_a Pretrain ["seq_a"; "seq_a"] tt).1 = Ok ds ∧
    Forall (well_formed Pretrain) ds ∧
    Forall2 (λ filename d, ∃ data, Samples.disk_a !! filename = Some data ∧
                                   data !! "lengths" = Some (lengths d))
            ["seq_a"; "seq_a"] ds ∧
    consume Samples.mask_none Samples.disk_a (S (total_examples ds))
      (pretrain_sample_reader ["seq_a"; "seq_a"] 3)
      (call_reader (pretrain_sample_reader ["seq_a"; "seq_a"] 3)) ∅ tt
      = (bs, Some Completed) ∧
    length (concat bs) = total_examples ds.
Proof.
  apply (well_formed_archives_pass Samples.mask_none Samples.disk_a
           (pretrain_sample_reader ["seq_a"; "seq_a"] 3) ∅ tt).
  - intros _ w t. unfold Samples.mask_none. simpl. by rewrite length_fmap.
  - assert (∃ data, Samples.disk_a !! "seq_a" = Some data ∧
                    archive_well_formed Pretrain data) as Ha.
    { eexists. split; [apply lookup_singleton_eq|].
      exists [1; 2; 3; 4; 5], [2; 3]. split_and!; [reflexivity..|sample_fits|done|done]. }
    repeat constructor; exact Ha.
Defined.

(** ** Files are opened as the pass goes *)

(** The first call of [next] stops at the first full batch: when the
    archives of a first part of the file list fit and hold at least
    [batch_size >= 1] examples, it yields the first [batch_size] of them in
    the list it has allocated, whatever the rest of the file list names,
    files that are not on the disk included. *)
Theorem first_batch_needs_no_later_file {W : Type}
    (apply_bert_mask : W → list Z → (list Z * list Z) * W)
    (fs : gmap string (gmap string (list Z))) (r : reader)
    (σ : gmap positive (list example)) (w : W)
    (pre post : list string) (ds : list loaded) (w1 : W) :
  filenames r = pre ++ post →
  load_all apply_bert_mask fs (r_variant r) pre w = (Ok ds, w1) →
  Forall (fits (r_variant r)) ds →
  1 <= batch_size r <= Z.of_nat (total_examples ds) →
  ∃ g' w',
    next apply_bert_mask fs r (call_reader r) σ w
      = (Yield (fresh (dom σ)), g',
         <[fresh (dom σ) :=
             take (Z.to_nat (batch_size r))
                  (concat (spec_examples (r_variant r) <$> ds))]> σ,
         w') ∧
    examples_loc g' = Some (fresh (dom σ)).
Proof.
  intros Hfiles Hpre Hfits HB.
  pose proof (next_spec apply_bert_mask fs r NotStarted σ w I) as Hnext.
  destruct (files_stream apply_bert_mask fs (r_variant r) post w1) as [es2 t2] eqn:Hpost.
  assert (pending apply_bert_mask fs r NotStarted w
          = (concat (spec_examples (r_variant r) <$> ds) ++ es2, t2)) as Hp.
  { unfold pending. rewrite Hfiles, (files_stream_app _ _ _ _ _ _ _ _ Hpre).
    by rewrite (files_stream_fits _ _ _ _ _ _ _ Hpre Hfits), Hpost. }
  cbv zeta in Hnext. rewrite Hp in Hnext. cbn [fst snd] in Hnext.
  rewrite fills_true in Hnext by (rewrite length_app, all_examples_length; lia).
  destruct Hnext as (g' & w' & Hrun & _ & Hloc & _).
  exists g', w'. split; [|exact Hloc]. unfold call_reader. rewrite Hrun.
  rewrite take_app_le by (rewrite all_examples_length; lia). done.
Qed.

Lemma first_batch_needs_no_later_file_witness :
  ∃ g' w',
    next Samples.mask_none Samples.disk
      (sequence_sample_reader ["seq_a"; "nowhere"] 2 "labels")
      (call_reader (sequence_sample_reader ["seq_a"; "nowhere"] 2 "labels")) ∅ tt
      = (Yield (fresh (dom (∅ : gmap positive (list example)))), g',
         <[fresh (dom (∅ : gmap positive (list example))) :=
             take (Z.to_nat 2)
                  (concat (spec_examples (SeqLabel "labels") <$> [Samples.seq_a]))]> ∅,
         w') ∧
    examples_loc g' = Some (fresh (dom (∅ : gmap positive (list example)))).
Proof.
  apply (first_batch_needs_no_later_file Samples.mask_none Samples.disk
           (sequence_sample_reader ["seq_a"; "nowhere"] 2 "labels") ∅ tt
           ["seq_a"] ["nowhere"] [Samples.seq_a] tt).
  - reflexivity.
  - vm_compute. reflexivity.
  - sample_fits.
  - simpl. lia.
Defined.

(** ** The reader that is returned *)

(** A reader comes back from [get_sample_generator] only for one of the
    four tasks; it holds the file list and the batch size it was given,
    and the labelled readers hold the label name of the configuration, or
    ['labels'] when the configuration has none. *)
Theorem returned_reader (files : list string) (B : Z)
    (model_config : gmap string string) (r : reader) :
  get_sample_generator files B model_config = Ok r →
  (∃ task, model_config !! "task" = Some task ∧
           task ∈ ["pretrain"; "seq_classification"; "classification"; "regression"]) ∧
  filenames r = files ∧ batch_size r = B ∧
  match r_variant r with
  | Pretrain => True
  | SeqLabel label_name | Scalar label_name =>
    label_name = default "labels" (model_config !! "label_name")
  end.
Proof.
  unfold get_sample_generator.
  destruct (model_config !! "task") as [task|]; [|done].
  destruct (String.eqb_spec task "pretrain") as [->|_].
  { intros [= <-]. split_and!; try done. eexists. split; [done|]. set_solver. }
  destruct (String.eqb_spec task "seq_classification") as [->|_].
  { intros [= <-]. split_and!; try done. eexists. split; [done|]. set_solver. }
  destruct (decide (task ∈ ["classification"; "regression"])) as [Hin|Hnot].
  - rewrite bool_decide_eq_true_2 by done. intros [= <-].
    split_and!; try done. exists task. split; [done|].
    apply elem_of_cons; right. apply elem_of_cons; right. exact Hin.
  - by rewrite bool_decide_eq_false_2 by done.
Qed.

Lemma returned_reader_witness :
  (∃ task, ({[ "task" := "regression"; "label_name" := "stability" ]}
              : gmap string string) !! "task" = Some task ∧
           task ∈ ["pretrain"; "seq_classification"; "classification"; "regression"]) ∧
  filenames (normal_sample_reader ["seq_a"] 4 "stability") = ["seq_a"] ∧
  batch_size (normal_sample_reader ["seq_a"] 4 "stability") = 4 ∧
  match r_variant (normal_sample_reader ["seq_a"] 4 "stability") with
  | Pretrain => True
  | SeqLabel label_name | Scalar label_name =>
    label_name = default "labels"
                   (({[ "task" := "regression"; "label_name" := "stability" ]}
                       : gmap string string) !! "label_name")
  end.
Proof.
  apply (returned_reader ["seq_a"] 4
           {[ "task" := "regression"; "label_name" := "stability" ]}
           (normal_sample_reader ["seq_a"] 4 "stability")).
  vm_compute. reflexivity.
Defined.
